(** * agento: the monitor scheduler ([monitor/Monitor.go])

    A shallow embedding of package [monitor]: the Monitor record, the
    administrative CRUD operations of the [Scheduler], and its polling
    [Loop] with the goroutines it spawns.  The Mongo collections, the
    broadcaster, the time-series sink and the logger are external; their
    calls are recorded in one ordered effect trace and their results are
    supplied by the environment. *)

From Stdlib Require Import ZArith Lia List Ascii String Bool.
From stdpp Require Import base option list strings gmap relations.

Open Scope string_scope.
Open Scope list_scope.
Open Scope Z_scope.

(** ** Go values used by the package *)

(** [error]: the values the package produces or passes on. [nil] is [None]
    of [option error]. *)
Inductive error :=
| ErrorInvalidId               (* errors.New("Invalid id") *)
| ErrNotFound                  (* mgo.ErrNotFound *)
| ErrDupKey                    (* duplicate _id on Insert *)
| ErrOther (msg : string).     (* any other failure of a collaborator *)

(** [time.Time] as nanoseconds on the time line, [time.Duration] as a
    signed 64-bit count of nanoseconds. *)
Abbreviation Time := Z (only parsing).
Abbreviation Duration := Z (only parsing).

Definition minDuration : Z := - 2 ^ 63.
Definition maxDuration : Z := 2 ^ 63 - 1.

(** Two's complement wrap-around of int64 arithmetic. *)
Definition wrap64 (z : Z) : Z := (z + 2 ^ 63) mod 2 ^ 64 - 2 ^ 63.

(** [t.Sub(u)]: the duration t-u, saturated at the ends of [Duration]. *)
Definition Sub (t u : Time) : Duration :=
  if t - u <? minDuration then minDuration
  else if maxDuration <? t - u then maxDuration
  else t - u.

(** [t.Add(d)]. *)
Definition Add (t : Time) (d : Duration) : Time := t + d.

(** [rand.Int63n(n)] panics when [n <= 0] and otherwise ends in
    [return v % n] (or [v & (n-1)] for a power of two) on a non-negative
    63-bit draw [v] of the generator; [v] is supplied by the environment. *)
Definition Int63n (v : Z) (n : Z) : option Z :=
  if n <=? 0 then None else Some (v mod n).

(** ** Object identifiers ([bson.ObjectId]) *)

(** An [ObjectId] is a Go string holding 12 raw bytes. *)
Abbreviation ObjectId := string (only parsing).

Definition hextable : string := "0123456789abcdef".

Definition hexdigit (n : nat) : ascii :=
  match String.get n hextable with Some c => c | None => "0"%char end.

(** [fromHexChar] of encoding/hex. *)
Definition fromHexChar (c : ascii) : option nat :=
  let n := nat_of_ascii c in
  if (48 <=? n)%nat && (n <=? 57)%nat then Some (n - 48)%nat
  else if (97 <=? n)%nat && (n <=? 102)%nat then Some (n - 97 + 10)%nat
  else if (65 <=? n)%nat && (n <=? 70)%nat then Some (n - 65 + 10)%nat
  else None.

(** [hex.EncodeToString]. *)
Fixpoint EncodeToString (src : string) : string :=
  match src with
  | EmptyString => EmptyString
  | String c rest =>
      String (hexdigit (nat_of_ascii c / 16))
        (String (hexdigit (nat_of_ascii c mod 16)) (EncodeToString rest))
  end.

(** [hex.DecodeString]; [None] stands for its error results. *)
Fixpoint DecodeString (s : string) : option string :=
  match s with
  | EmptyString => Some EmptyString
  | String _ EmptyString => None
  | String a (String b rest) =>
      match fromHexChar a, fromHexChar b, DecodeString rest with
      | Some x, Some y, Some d => Some (String (ascii_of_nat (x * 16 + y)) d)
      | _, _, _ => None
      end
  end.

(** [bson.IsObjectIdHex]. *)
Definition IsObjectIdHex (s : string) : bool :=
  (String.length s =? 24)%nat && bool_decide (is_Some (DecodeString s)).

(** [bson.ObjectIdHex]; [None] is its panic on an invalid argument. *)
Definition ObjectIdHex (s : string) : option string :=
  match DecodeString s with
  | Some d => if (String.length d =? 12)%nat then Some d else None
  | None => None
  end.

(** [ObjectId.Hex]. *)
Definition Hex (id : string) : string := EncodeToString id.

(** The identifier reserved for the local host. *)
Definition localHostHex : string := "000000000000000000000000".

(** A character of the hexadecimal alphabet. *)
Definition is_hex_char (c : ascii) : bool :=
  bool_decide (c ∈ list_ascii_of_string "0123456789abcdefABCDEF").

(** A well-formed identifier in text form: 24 hexadecimal characters. *)
Definition well_formed_hex_id (s : string) : Prop :=
  String.length s = 24%nat ∧ Forall (λ c, is_hex_char c = true) (list_ascii_of_string s).

(** [bson.NewObjectId] of mgo fills the 12 bytes from the clock, two
    constants of the process and a counter:
    [[
      binary.BigEndian.PutUint32(b[:], uint32(time.Now().Unix()))
      b[4] = machineId[0]; b[5] = machineId[1]; b[6] = machineId[2]
      b[7] = byte(processId >> 8); b[8] = byte(processId)
      i := atomic.AddUint32(&objectIdCounter, 1)
      b[9] = byte(i >> 16); b[10] = byte(i >> 8); b[11] = byte(i)
    ]]
    [ObjectIdGen] holds the package variables it reads: the first three
    bytes of the MD5 sum of the host name, the process id, and the counter,
    a uint32 that starts at a random value. *)
Record ObjectIdGen := {
  machineId : ascii * ascii * ascii;
  processId : Z;
  objectIdCounter : Z;
}.

(** The conversion [byte(x)] of an integer: its low eight bits. *)
Definition byte_of (z : Z) : ascii := ascii_of_nat (Z.to_nat (z mod 256)).

(** [unix] is the reading [time.Now().Unix()] of the wall clock, in seconds. *)
Definition NewObjectId (unix : Z) (g : ObjectIdGen) : string * ObjectIdGen :=
  let ts := unix mod 2 ^ 32 in
  let i := (objectIdCounter g + 1) mod 2 ^ 32 in
  let '(m0, m1, m2) := machineId g in
  (string_of_list_ascii
     [byte_of (ts / 2 ^ 24); byte_of (ts / 2 ^ 16); byte_of (ts / 2 ^ 8); byte_of ts;
      m0; m1; m2;
      byte_of (processId g / 2 ^ 8); byte_of (processId g);
      byte_of (i / 2 ^ 16); byte_of (i / 2 ^ 8); byte_of i],
   {| machineId := machineId g; processId := processId g; objectIdCounter := i |}).

(** The counter bytes of an identifier, bytes 9 to 11, as a number. *)
Definition oid_counter (id : string) : Z :=
  match list_ascii_of_string id with
  | [_; _; _; _; _; _; _; _; _; a; b; c] =>
      Z.of_nat (nat_of_ascii a) * 2 ^ 16 + Z.of_nat (nat_of_ascii b) * 2 ^ 8
      + Z.of_nat (nat_of_ascii c)
  | _ => 0
  end.

(** ** Data model *)

(** [client.Point] of the time-series client: opaque to the scheduler. *)
Record Point := {
  Measurement : string;
  Tags : list (string * string);
  PointTime : Time;
  Fields : list (string * Z);
}.

(** [plugins.Transport]: an interface value; the scheduler only passes it on. *)
Inductive Transport := TransportImpl (name : string).

(** [Job]: the agent selection and the agent's own state. *)
Record Job := {
  AgentId : string;
  Agent : Z;
}.

Record Host := {
  HostId_ : ObjectId;            (* Id *)
  Name : string;
  TransportId : string;
  HostTransport : option Transport;   (* Transport; [None] is the nil interface *)
}.

Record Monitor := {
  Id : ObjectId;
  HostId : ObjectId;
  Interval : Duration;
  MonJob : Job;                  (* Job *)
  LastCheck : Time;
  NextCheck : Time;
  LastPoints : list Point;
}.

(** Zero values of [var host Host] and [var monitor Monitor]. *)
Definition zeroHost : Host :=
  {| HostId_ := ""; Name := ""; TransportId := ""; HostTransport := None |}.

Definition zeroMonitor : Monitor :=
  {| Id := ""; HostId := ""; Interval := 0; MonJob := {| AgentId := ""; Agent := 0 |};
     LastCheck := 0; NextCheck := 0; LastPoints := [] |}.

Definition set_Id (v : ObjectId) (m : Monitor) : Monitor :=
  {| Id := v; HostId := HostId m; Interval := Interval m; MonJob := MonJob m;
     LastCheck := LastCheck m; NextCheck := NextCheck m; LastPoints := LastPoints m |}.

Definition set_MonJob (v : Job) (m : Monitor) : Monitor :=
  {| Id := Id m; HostId := HostId m; Interval := Interval m; MonJob := v;
     LastCheck := LastCheck m; NextCheck := NextCheck m; LastPoints := LastPoints m |}.

Definition set_LastCheck (v : Time) (m : Monitor) : Monitor :=
  {| Id := Id m; HostId := HostId m; Interval := Interval m; MonJob := MonJob m;
     LastCheck := v; NextCheck := NextCheck m; LastPoints := LastPoints m |}.

Definition set_NextCheck (v : Time) (m : Monitor) : Monitor :=
  {| Id := Id m; HostId := HostId m; Interval := Interval m; MonJob := MonJob m;
     LastCheck := LastCheck m; NextCheck := v; LastPoints := LastPoints m |}.

Definition set_LastPoints (v : list Point) (m : Monitor) : Monitor :=
  {| Id := Id m; HostId := HostId m; Interval := Interval m; MonJob := MonJob m;
     LastCheck := LastCheck m; NextCheck := NextCheck m; LastPoints := v |}.

(** ** Documents as the store keeps them

    [UpdateId] and [Insert] hand the Monitor to mgo, which marshals it to
    BSON. A BSON datetime counts milliseconds: the encoder writes
    [t.Unix()*1000 + int64(t.Nanosecond()/1e6)] and the decoder returns
    [time.Unix(i/1e3, i%1e3*1e6)], so of a [time.Time] the store keeps the
    instant rounded down to a whole millisecond. Identifiers, the interval
    (an int64), strings and integers are kept as they are. *)
Definition bson_datetime (t : Time) : Time := t / 1000000 * 1000000.

Definition bson_point (p : Point) : Point :=
  {| Measurement := Measurement p; Tags := Tags p;
     PointTime := bson_datetime (PointTime p); Fields := Fields p |}.

Definition bson_monitor (m : Monitor) : Monitor :=
  {| Id := Id m; HostId := HostId m; Interval := Interval m; MonJob := MonJob m;
     LastCheck := bson_datetime (LastCheck m); NextCheck := bson_datetime (NextCheck m);
     LastPoints := map bson_point (LastPoints m) |}.

(** A time with no fraction of a millisecond. *)
Definition whole_ms (t : Time) : Prop := t mod 1000000 = 0.

(** ** Observable effects *)

(** The second argument of [Broadcaster.Broadcast]: a Monitor or, for a
    deletion, the identifier string. *)
Inductive Payload :=
| PMonitor (m : Monitor)
| PString (s : string).

Inductive Colour := Red | Yellow | Green.

(** Writes sent to the Mongo collections. *)
Inductive StoreOp :=
| OpUpdateId (id : ObjectId) (doc : Monitor)
| OpInsert (doc : Monitor)
| OpRemoveId (id : ObjectId)
| OpInsertHost (doc : Host).

(** One entry per call that leaves the scheduler, in program order. *)
Inductive Event :=
| Broadcast (name : string) (payload : Payload)
| StoreWrite (op : StoreOp) (res : option error)
| WritePoints (p : list Point) (res : option error)
| Log (c : Colour) (component format : string).

(** [err.Error()]. *)
Definition Error (e : error) : string :=
  match e with
  | ErrorInvalidId => "Invalid id"
  | ErrNotFound => "not found"
  | ErrDupKey => "duplicate key"
  | ErrOther msg => msg
  end.

(** ** Goroutines spawned by [Loop] *)

(** Program points of the function literal of lines 178-203, named by the
    line about to run. *)
Inductive PC := L180 | L181 | L182 | L187 | L188 | L189 | L191 | L196 | L200.

(** The locals of one goroutine: the parameter [mon] (a copy), [host], [p],
    [err], and where it stands. The variable [t] is not a local: the
    literal is passed [mon] only and refers to [t] of
    [for t := range ticker], which Go (before 1.22, and this package
    predates modules) declares once for the whole loop and assigns anew on
    every tick. *)
Record Task := {
  g_mon : Monitor;
  g_host : Host;
  g_p : list Point;
  g_err : option error;
  g_pc : PC;
}.

Definition at_pc (pc : PC) (g : Task) : Task :=
  {| g_mon := g_mon g; g_host := g_host g; g_p := g_p g; g_err := g_err g; g_pc := pc |}.

Definition with_mon (m : Monitor) (g : Task) : Task :=
  {| g_mon := m; g_host := g_host g; g_p := g_p g; g_err := g_err g; g_pc := g_pc g |}.

(** ** Scheduler state *)

Record State := {
  monitorCollection : list Monitor;    (* documents of "monitors" *)
  hostCollection : list Host;          (* documents of "hosts" *)
  inFlight : gmap string bool;         (* map[bson.ObjectId]bool *)
  loop_t : Time;                       (* the variable t of "for t := range ticker" *)
  pending : list Monitor;              (* what is left of "range monitors" *)
  goroutines : list Task;
  trace : list Event;
  issued : list ObjectId;              (* results of bson.NewObjectId so far *)
  objectIds : ObjectIdGen;             (* package variables of bson.NewObjectId *)
}.

Definition set_monitorCollection (v : list Monitor) (s : State) : State :=
  {| monitorCollection := v; hostCollection := hostCollection s; inFlight := inFlight s;
     loop_t := loop_t s; pending := pending s; goroutines := goroutines s;
     trace := trace s; issued := issued s; objectIds := objectIds s |}.

Definition set_hostCollection (v : list Host) (s : State) : State :=
  {| monitorCollection := monitorCollection s; hostCollection := v; inFlight := inFlight s;
     loop_t := loop_t s; pending := pending s; goroutines := goroutines s;
     trace := trace s; issued := issued s; objectIds := objectIds s |}.

Definition set_inFlight (v : gmap string bool) (s : State) : State :=
  {| monitorCollection := monitorCollection s; hostCollection := hostCollection s; inFlight := v;
     loop_t := loop_t s; pending := pending s; goroutines := goroutines s;
     trace := trace s; issued := issued s; objectIds := objectIds s |}.

Definition set_loop_t (v : Time) (s : State) : State :=
  {| monitorCollection := monitorCollection s; hostCollection := hostCollection s;
     inFlight := inFlight s; loop_t := v; pending := pending s; goroutines := goroutines s;
     trace := trace s; issued := issued s; objectIds := objectIds s |}.

Definition set_pending (v : list Monitor) (s : State) : State :=
  {| monitorCollection := monitorCollection s; hostCollection := hostCollection s;
     inFlight := inFlight s; loop_t := loop_t s; pending := v; goroutines := goroutines s;
     trace := trace s; issued := issued s; objectIds := objectIds s |}.

Definition set_goroutines (v : list Task) (s : State) : State :=
  {| monitorCollection := monitorCollection s; hostCollection := hostCollection s;
     inFlight := inFlight s; loop_t := loop_t s; pending := pending s; goroutines := v;
     trace := trace s; issued := issued s; objectIds := objectIds s |}.

Definition set_issued (v : list ObjectId) (s : State) : State :=
  {| monitorCollection := monitorCollection s; hostCollection := hostCollection s;
     inFlight := inFlight s; loop_t := loop_t s; pending := pending s;
     goroutines := goroutines s; trace := trace s; issued := v;
     objectIds := objectIds s |}.

Definition set_objectIds (v : ObjectIdGen) (s : State) : State :=
  {| monitorCollection := monitorCollection s; hostCollection := hostCollection s;
     inFlight := inFlight s; loop_t := loop_t s; pending := pending s;
     goroutines := goroutines s; trace := trace s; issued := issued s;
     objectIds := v |}.

(** Append one effect to the trace. *)
Definition emit (e : Event) (s : State) : State :=
  {| monitorCollection := monitorCollection s; hostCollection := hostCollection s;
     inFlight := inFlight s; loop_t := loop_t s; pending := pending s;
     goroutines := goroutines s; trace := trace s ++ [e]; issued := issued s;
     objectIds := objectIds s |}.

(** ** The Mongo collections

    The operations the package uses, by their mgo contract. Each call takes
    the fault the environment injects: [Some e] makes the call fail with [e]
    and leave the collection as it was. A collection holds documents: what
    is written is the BSON form of the Go value, and that is what a later
    read decodes. *)

Definition has_id (id : ObjectId) (m : Monitor) : bool := String.eqb (Id m) id.

Fixpoint replace_id (id : ObjectId) (doc : Monitor) (c : list Monitor) : option (list Monitor) :=
  match c with
  | [] => None
  | m :: rest =>
      if has_id id m then Some (doc :: rest)
      else match replace_id id doc rest with
           | Some rest' => Some (m :: rest')
           | None => None
           end
  end.

Fixpoint remove_id (id : ObjectId) (c : list Monitor) : option (list Monitor) :=
  match c with
  | [] => None
  | m :: rest =>
      if has_id id m then Some rest
      else match remove_id id rest with
           | Some rest' => Some (m :: rest')
           | None => None
           end
  end.

(** [Find(bson.M{}).All(&monitors)]. *)
Definition FindAll (flt : option error) (c : list Monitor) : list Monitor * option error :=
  match flt with
  | Some e => ([], Some e)
  | None => (c, None)
  end.

(** [FindId(id).One(&monitor)]; the target is written only on success. *)
Definition FindId (flt : option error) (id : ObjectId) (c : list Monitor)
  : option Monitor * option error :=
  match flt with
  | Some e => (None, Some e)
  | None => match List.find (has_id id) c with
            | Some m => (Some m, None)
            | None => (None, Some ErrNotFound)
            end
  end.

(** [UpdateId(id, doc)]: replaces the document that has this [_id] by the
    BSON form of [doc]. *)
Definition UpdateId (flt : option error) (id : ObjectId) (doc : Monitor) (c : list Monitor)
  : list Monitor * option error :=
  match flt with
  | Some e => (c, Some e)
  | None => match replace_id id (bson_monitor doc) c with
            | Some c' => (c', None)
            | None => (c, Some ErrNotFound)
            end
  end.

(** [Insert(doc)]: stores the BSON form of [doc]; [_id] is unique within a
    collection. *)
Definition Insert (flt : option error) (doc : Monitor) (c : list Monitor)
  : list Monitor * option error :=
  match flt with
  | Some e => (c, Some e)
  | None => if existsb (has_id (Id doc)) c then (c, Some ErrDupKey)
            else (c ++ [bson_monitor doc], None)
  end.

(** [RemoveId(id)]. *)
Definition RemoveId (flt : option error) (id : ObjectId) (c : list Monitor)
  : list Monitor * option error :=
  match flt with
  | Some e => (c, Some e)
  | None => match remove_id id c with
            | Some c' => (c', None)
            | None => (c, Some ErrNotFound)
            end
  end.

Definition host_has_id (id : ObjectId) (h : Host) : bool := String.eqb (HostId_ h) id.

Definition FindHostId (flt : option error) (id : ObjectId) (c : list Host)
  : option Host * option error :=
  match flt with
  | Some e => (None, Some e)
  | None => match List.find (host_has_id id) c with
            | Some h => (Some h, None)
            | None => (None, Some ErrNotFound)
            end
  end.

Definition InsertHost (flt : option error) (doc : Host) (c : list Host)
  : list Host * option error :=
  match flt with
  | Some e => (c, Some e)
  | None => if existsb (host_has_id (HostId_ doc)) c then (c, Some ErrDupKey)
            else (c ++ [doc], None)
  end.

(** ** Results of code that can panic *)

(** A Go panic is not recovered anywhere in the package: it ends the
    process. [Crashed] keeps the state reached and the panic message. *)
Inductive Outcome (A : Type) :=
| Running (a : A)
| Crashed (s : State) (msg : string).
Arguments Running {A} a.
Arguments Crashed {A} s msg.

(** ** Administrative operations of [Scheduler] *)

(** [GetAllMonitors], lines 74-83. *)
Definition GetAllMonitors (flt : option error) (s : State) : State * list Monitor :=
  let '(monitors, err) := FindAll flt (monitorCollection s) in
  match err with
  | Some e => (emit (Log Red "monitor" "Error getting monitors from Mongo: %s") s, monitors)
  | None => (s, monitors)
  end.

(** [GetMonitor], lines 85-99. *)
Definition GetMonitor (flt : option error) (id : string) (s : State)
  : Outcome (State * Monitor * option error) :=
  if negb (IsObjectIdHex id) then Running (s, zeroMonitor, Some ErrorInvalidId)
  else
    match ObjectIdHex id with
    | None => Crashed s "Invalid input to ObjectIdHex"
    | Some oid =>
        match FindId flt oid (monitorCollection s) with
        | (_, Some e) =>
            Running (emit (Log Red "monitor" "Error getting monitors from Mongo: %s") s,
                     zeroMonitor, Some e)
        | (found, None) => Running (s, default zeroMonitor found, None)
        end
    end.

(** [UpdateMonitor], lines 101-105. *)
Definition UpdateMonitor (flt : option error) (mon : Monitor) (s : State)
  : State * option error :=
  let s1 := emit (Broadcast "monchange" (PMonitor mon)) s in
  let '(c, err) := UpdateId flt (Id mon) mon (monitorCollection s1) in
  (emit (StoreWrite (OpUpdateId (Id mon) mon) err) (set_monitorCollection c s1), err).

(** [AddMonitor], lines 107-113. [unix] is the clock reading that
    [bson.NewObjectId()] takes; the Monitor behind the pointer is returned
    as changed. *)
Definition AddMonitor (unix : Z) (flt : option error) (mon : Monitor) (s : State)
  : State * Monitor * option error :=
  let '(oid, gen) := NewObjectId unix (objectIds s) in
  let mon := set_Id oid mon in
  let s0 := set_objectIds gen (set_issued (oid :: issued s) s) in
  let s1 := emit (Broadcast "monadd" (PMonitor mon)) s0 in
  let '(c, err) := Insert flt mon (monitorCollection s1) in
  (emit (StoreWrite (OpInsert mon) err) (set_monitorCollection c s1), mon, err).

(** [DeleteMonitor], lines 115-123. *)
Definition DeleteMonitor (flt : option error) (id : string) (s : State)
  : Outcome (State * option error) :=
  if negb (IsObjectIdHex id) then Running (s, Some ErrorInvalidId)
  else
    let s1 := emit (Broadcast "mondelete" (PString id)) s in
    match ObjectIdHex id with
    | None => Crashed s1 "Invalid input to ObjectIdHex"
    | Some oid =>
        let '(c, err) := RemoveId flt oid (monitorCollection s1) in
        Running (emit (StoreWrite (OpRemoveId oid) err) (set_monitorCollection c s1), err)
    end.

(** Modelled from the spec: [Scheduler.GetHost] is declared in the [Admin]
    interface and called by [Loop], but its body is not among the source
    files. The spec gives "get one by identifier (fails with
    InvalidIdentifier if malformed)"; it is taken to mirror [GetMonitor] on
    the host collection. *)
Definition GetHost (flt : option error) (id : string) (s : State)
  : Outcome (State * Host * option error) :=
  if negb (IsObjectIdHex id) then Running (s, zeroHost, Some ErrorInvalidId)
  else
    match ObjectIdHex id with
    | None => Crashed s "Invalid input to ObjectIdHex"
    | Some oid =>
        match FindHostId flt oid (hostCollection s) with
        | (_, Some e) => Running (s, zeroHost, Some e)
        | (found, None) => Running (s, default zeroHost found, None)
        end
    end.

(** ** [Loop]: start-up, lines 126-140 *)

(** What a registered constructor returns: an [interface{}] that does or
    does not hold a [plugins.Transport]. *)
Inductive PluginValue :=
| IsTransport (tr : Transport)
| NotTransport.

(** [plugins.GetTransports()]: constructors by key. A key that is absent
    yields the zero value of the function type, nil. *)
Abbreviation Registry := (gmap string (unit → PluginValue)) (only parsing).

Definition Loop_startup (gh_flt ins_flt : option error) (transports : Registry) (s : State)
  : Outcome State :=
  match GetHost gh_flt localHostHex s with
  | Crashed s' msg => Crashed s' msg
  | Running (s0, _, None) => Running s0
  | Running (s0, _, Some _) =>
      let p := transports !! "localtransport" in
      let s1 := match p with
                | None => emit (Log Red "monitor" "localtransport plugin not found") s0
                | Some _ => s0
                end in
      (* the fields of the literal in order: Id: bson.ObjectIdHex(...), then
         Transport: p().(plugins.Transport) *)
      match ObjectIdHex localHostHex with
      | None => Crashed s1 "Invalid input to ObjectIdHex"
      | Some oid =>
          match p with
          | None => Crashed s1 "invalid memory address or nil pointer dereference"
          | Some ctor =>
              match ctor tt with
              | NotTransport => Crashed s1 "interface conversion: not plugins.Transport"
              | IsTransport tr =>
                  let host := {| HostId_ := oid; Name := "localhost";
                                 TransportId := "localtransport";
                                 HostTransport := Some tr |} in
                  let '(c, err) := InsertHost ins_flt host (hostCollection s1) in
                  let s2 := emit (StoreWrite (OpInsertHost host) err)
                              (set_hostCollection c s1) in
                  Running (emit (Log Yellow "monitor" "Added localhost transport with id %s") s2)
              end
          end
      end
  end.

(** ** [Loop]: one tick, lines 146-153 *)

(** The ticker delivers [now], which is assigned to [t]; then the snapshot
    is fetched. On failure the body is left by [continue]. *)
Definition tick (now : Time) (flt : option error) (s : State) : State :=
  let s1 := set_loop_t now s in
  let '(monitors, err) := FindAll flt (monitorCollection s1) in
  match err with
  | Some e => emit (Log Red "monitor" "Error getting monitors from Mongo: %s") s1
  | None => set_pending monitors s1
  end.

(** A goroutine as started by the [go] statement of line 178. *)
Definition spawn (mon : Monitor) : Task :=
  {| g_mon := mon; g_host := zeroHost; g_p := []; g_err := None; g_pc := L180 |}.

(** The body of [for _, mon := range monitors], lines 155-204. [v] is the
    generator's draw if [rand.Int63n] is reached, [flt] the fault of the
    update if [UpdateMonitor] is reached. *)
Definition scan_body (v : Z) (flt : option error) (mon : Monitor) (s : State) : Outcome State :=
  let t := loop_t s in
  let age := Sub t (LastCheck mon) in
  let wait := Sub (NextCheck mon) t in
  match inFlight s !! Id mon with
  | Some _ => Running s
  | None =>
      if (wrap64 (Interval mon * 2) <? age) && (wait <? wrap64 (- Interval mon)) then
        match Int63n v (Interval mon) with
        | None => Crashed s "invalid argument to Int63n"
        | Some checkIn =>
            let mon := set_NextCheck (Add t checkIn) mon in
            let s1 := emit (Log Yellow "monitor" "%s %s: Delaying first check by %s") s in
            let '(s2, err) := UpdateMonitor flt mon s1 in
            match err with
            | Some e => Running (emit (Log Red "Error updating: %v" (Error e)) s2)
            | None => Running s2
            end
        end
      else if wait <? 0 then
        let s1 := set_inFlight (<[Id mon := true]> (inFlight s)) s in
        Running (set_goroutines (goroutines s1 ++ [spawn mon]) s1)
      else Running s
  end.

(** One iteration of the inner loop on the snapshot of the current tick. *)
Definition scan_step (v : Z) (flt : option error) (s : State) : Outcome State :=
  match pending s with
  | [] => Running s
  | mon :: rest => scan_body v flt mon (set_pending rest s)
  end.

(** ** The dispatched execution, lines 178-203 *)

(** What [mon.Job.Run(host.Transport)] hands back: the points, the error,
    and the Job as the agent leaves it. *)
Record RunResult := {
  rr_job : Job;
  rr_points : list Point;
  rr_err : option error;
}.

(** The environment's part in the steps of one goroutine. *)
Record IO := {
  io_find : option error;      (* fault of hostCollection.FindId *)
  io_run : RunResult;          (* result of Job.Run *)
  io_update : option error;    (* fault of monitorCollection.UpdateId *)
  io_write : option error;     (* result of server.WritePoints *)
}.

(** One statement of the goroutine. The second component is the goroutine
    afterwards, [None] once the function literal has returned. *)
Definition task_step (io : IO) (g : Task) (s : State) : State * option Task :=
  let mon := g_mon g in
  match g_pc g with
  | L180 =>
      let '(found, _) := FindHostId (io_find io) (HostId mon) (hostCollection s) in
      (s, Some {| g_mon := mon; g_host := default (g_host g) found; g_p := g_p g;
                  g_err := g_err g; g_pc := L181 |})
  | L181 =>
      let r := io_run io in
      (s, Some {| g_mon := set_MonJob (rr_job r) mon; g_host := g_host g;
                  g_p := rr_points r; g_err := rr_err r; g_pc := L182 |})
  | L182 =>
      match g_err g with
      | None => (emit (Log Green "monitor" "%s: %s") s, Some (at_pc L187 g))
      | Some _ => (emit (Log Red "monitor" "%s: %s") s, Some (at_pc L187 g))
      end
  | L187 => (s, Some (at_pc L188 (with_mon (set_LastPoints (g_p g) mon) g)))
  | L188 => (s, Some (at_pc L189 (with_mon (set_LastCheck (loop_t s) mon) g)))
  | L189 =>
      (s, Some (at_pc L191 (with_mon (set_NextCheck (Add (loop_t s) (Interval mon)) mon) g)))
  | L191 =>
      let '(s1, err) := UpdateMonitor (io_update io) mon s in
      let s2 := match err with
                | Some e => emit (Log Red "monitor" "Error updating: %s") s1
                | None => s1
                end in
      (s2, Some {| g_mon := mon; g_host := g_host g; g_p := g_p g; g_err := err;
                   g_pc := L196 |})
  | L196 =>
      let err := io_write io in
      let s1 := emit (WritePoints (g_p g) err) s in
      let s2 := match err with
                | Some e => emit (Log Red "monitor" "Influxdb error: %s") s1
                | None => s1
                end in
      (s2, Some {| g_mon := mon; g_host := g_host g; g_p := g_p g; g_err := err;
                   g_pc := L200 |})
  | L200 => (set_inFlight (delete (Id mon) (inFlight s)) s, None)
  end.

(** The goroutine at position [i] runs its next statement. *)
Definition goroutine_step (i : nat) (io : IO) (s : State) : option State :=
  match goroutines s !! i with
  | None => None
  | Some g =>
      let '(s', og) := task_step io g s in
      match og with
      | Some g' => Some (set_goroutines (<[i := g']> (goroutines s')) s')
      | None => Some (set_goroutines (delete i (goroutines s')) s')
      end
  end.

(** ** Executions *)

(** The scheduler's transitions: the loop receives a tick when the previous
    scan is over, scans one Monitor of the snapshot, a goroutine runs one
    statement, or an administrative caller invokes an operation; they
    interleave freely. One scan iteration is one transition: between its
    read and its write of the in-flight map (both under [inFlightLock])
    only goroutines can run, and a goroutine deletes no entry but that of
    its own Monitor, which the iteration has just found absent. An
    administrative operation is one transition as well, and so is the
    [UpdateMonitor] call of a goroutine: the order of the effects is that
    of each call, and nothing is stated about how the broadcasts and store
    calls of concurrent callers fall between one another. The wall clock
    that [bson.NewObjectId] reads is under no constraint: it can be set
    back between two calls. *)
Inductive step : State → State → Prop :=
| step_tick now flt s :
    pending s = [] → step s (tick now flt s)
| step_scan v flt s s' :
    pending s ≠ [] → scan_step v flt s = Running s' → step s s'
| step_goroutine i io s s' :
    goroutine_step i io s = Some s' → step s s'
| step_get_all flt s :
    step s (GetAllMonitors flt s).1
| step_get flt id s s' m err :
    GetMonitor flt id s = Running (s', m, err) → step s s'
| step_update flt mon s :
    step s (UpdateMonitor flt mon s).1
| step_add unix flt mon s :
    step s (AddMonitor unix flt mon s).1.1
| step_delete flt id s s' err :
    DeleteMonitor flt id s = Running (s', err) → step s s'.

(** [Loop] enters its [for] with an empty in-flight map and nothing
    dispatched; the collections hold whatever was persisted before. *)
Definition initial (s : State) : Prop :=
  inFlight s = ∅ ∧ pending s = [] ∧ goroutines s = [] ∧ trace s = [].

Definition reachable (s : State) : Prop :=
  ∃ s0, initial s0 ∧ rtc step s0 s.

(** ** Derived notions used by the properties *)

(** Identifiers of the Monitors whose execution is running. *)
Definition running_ids (s : State) : list ObjectId :=
  map (λ g, Id (g_mon g)) (goroutines s).

(** Statements a goroutine still has to run. *)
Definition remaining (pc : PC) : nat :=
  match pc with
  | L180 => 9 | L181 => 8 | L182 => 7 | L187 => 6 | L188 => 5
  | L189 => 4 | L191 => 3 | L196 => 2 | L200 => 1
  end%nat.

(** The goroutine at position [i] runs [n] statements in a row; the
    environment's answers are indexed by the number of statements left. *)
Fixpoint run_goroutine (n : nat) (i : nat) (ios : nat → IO) (s : State) : option State :=
  match n with
  | O => Some s
  | S n' =>
      match goroutine_step i (ios n') s with
      | Some s' => run_goroutine n' i ios s'
      | None => None
      end
  end.

(** Every mark of the in-flight map belongs to exactly one goroutine. *)
Definition flight_inv (s : State) : Prop :=
  NoDup (running_ids s) ∧ ∀ id, is_Some (inFlight s !! id) ↔ id ∈ running_ids s.

(** The identifier announced by an "monadd" broadcast. *)
Definition added_id (e : Event) : option ObjectId :=
  match e with
  | Broadcast name (PMonitor m) => if String.eqb name "monadd" then Some (Id m) else None
  | _ => None
  end.

Definition added_ids (tr : list Event) : list ObjectId := omap added_id tr.

(** Identifiers of the persisted Monitors, in collection order. *)
Definition stored_ids (s : State) : list ObjectId := map Id (monitorCollection s).

(** The announced identifiers carry consecutive values of the counter of
    [bson.NewObjectId], from the value [c0] it had when [Loop] started, in
    its three low bytes; each of them is in the log of the identifiers
    drawn. *)
Definition added_inv (s : State) : Prop :=
  ∃ c0,
    (length (added_ids (trace s)) ≤ length (issued s))%nat ∧
    objectIdCounter (objectIds s) mod 2 ^ 24
      = (c0 + Z.of_nat (length (added_ids (trace s)))) mod 2 ^ 24 ∧
    ∀ k id, added_ids (trace s) !! k = Some id →
            oid_counter id = (c0 + Z.of_nat k + 1) mod 2 ^ 24.

(** ** A worked schedule *)

Definition second : Duration := 1000000000.
Definition millisecond : Duration := 1000000.

Definition ex_T0 : Time := 1446000000 * second.

(** Monitor{interval=1s, LastCheck=T0, NextCheck=T0+1s}. *)
Definition ex_mon : Monitor :=
  {| Id := "monitor-0001"; HostId := "host-0000001"; Interval := second;
     MonJob := {| AgentId := "e"; Agent := 0 |};
     LastCheck := ex_T0; NextCheck := ex_T0 + second; LastPoints := [] |}.

(** A Monitor that was never checked: both timestamps at their zero value
    (January 1, year 1, far before any tick). *)
Definition ex_new_mon : Monitor :=
  {| Id := "monitor-0002"; HostId := "host-0000001"; Interval := 30 * second;
     MonJob := {| AgentId := "e"; Agent := 0 |};
     LastCheck := - 62135596800 * second; NextCheck := - 62135596800 * second;
     LastPoints := [] |}.

(** The variables of [bson.NewObjectId] in the example process, and the
    clock reading of its first call; with them the first identifier drawn
    is the one [ex_new_mon] is written with. *)
Definition ex_gen : ObjectIdGen :=
  {| machineId := ("t", "o", "r")%char; processId := 11568; objectIdCounter := 3158065 |}.

Definition ex_unix : Z := 1836019305.

Definition ex_start : State :=
  {| monitorCollection := [ex_mon]; hostCollection := []; inFlight := ∅;
     loop_t := 0; pending := []; goroutines := []; trace := []; issued := [];
     objectIds := ex_gen |}.

Definition ex_point : Point :=
  {| Measurement := "misc.AvailableEntropy"; Tags := []; PointTime := 0;
     Fields := [("value", 3071)] |}.

Definition ex_io : IO :=
  {| io_find := None;
     io_run := {| rr_job := {| AgentId := "e"; Agent := 3071 |};
                  rr_points := [ex_point]; rr_err := None |};
     io_update := None; io_write := None |}.

Definition state_of (o : Outcome State) (d : State) : State :=
  match o with Running s => s | Crashed _ _ => d end.

(** Tick at T0+1.05s: the Monitor is due and is dispatched. *)
Definition ex_T1 : Time := ex_T0 + 1050 * millisecond.
Definition ex_ticked : State := tick ex_T1 None ex_start.
Definition ex_dispatched : State := state_of (scan_step 0 None ex_ticked) ex_ticked.

(** The goroutine looks up its host and calls [Job.Run], which takes longer
    than one tick period. *)
Definition ex_found : State := default ex_dispatched (goroutine_step 0 ex_io ex_dispatched).

(** While [Job.Run] is under way the tick of T0+1.15s arrives; the Monitor
    is in flight and is skipped. *)
Definition ex_T2 : Time := ex_T0 + 1150 * millisecond.
Definition ex_ticked_again : State := tick ex_T2 None ex_found.
Definition ex_skipped : State :=
  state_of (scan_step 0 None ex_ticked_again) ex_ticked_again.

(** [Job.Run] returns and the goroutine runs lines 182 to 202. *)
Definition ex_finished : State :=
  default ex_skipped (run_goroutine 8 0 (λ _, ex_io) ex_skipped).

(** An administrative add of the never-checked Monitor, the first tick
    after it, and an update of the schedule of [ex_mon]. *)
Definition ex_added : State := (AddMonitor ex_unix None ex_new_mon ex_start).1.1.

Definition ex_cold : State :=
  state_of (scan_step 0 None (tick ex_T1 None ex_added)) ex_added.

Definition ex_edited_mon : Monitor := set_NextCheck (ex_T0 + 5 * second) ex_mon.

(** [ex_mon] as an execution leaves it when the tick that line 188 reads
    came 1.05 s and 250 microseconds after T0. *)
Definition ex_T3 : Time := ex_T1 + 250000.

Definition ex_checked_mon : Monitor :=
  set_NextCheck (ex_T3 + second) (set_LastCheck ex_T3 ex_mon).

(** [n] adds in a row within one second of the wall clock. *)
Definition ex_many_adds (n : nat) : State :=
  Nat.iter n (λ s, (AddMonitor ex_unix None ex_new_mon s).1.1) ex_start.

(** The identifier drawn in the example process when [k] identifiers were
    drawn before. *)
Definition ex_oid (k : Z) : ObjectId :=
  (NewObjectId ex_unix
     {| machineId := machineId ex_gen; processId := processId ex_gen;
        objectIdCounter := (objectIdCounter ex_gen + k) mod 2 ^ 32 |}).1.

(** ** Scanning a whole snapshot *)

(** The inner loop run to the end of the snapshot, or to a panic: [n]
    iterations, the draw and the fault of each supplied by position. *)
Fixpoint scan_all (n : nat) (vs : nat → Z) (flts : nat → option error) (s : State)
  : Outcome State :=
  match n with
  | O => Running s
  | S n' =>
      match scan_step (vs n') (flts n') s with
      | Running s' => scan_all n' vs flts s'
      | Crashed s' msg => Crashed s' msg
      end
  end.

(** The test of line 164 and the test of line 173 on exact differences. *)
Definition cold (t : Time) (mon : Monitor) : Prop :=
  t - LastCheck mon > 2 * Interval mon ∧ NextCheck mon - t < - Interval mon.

Definition due (t : Time) (mon : Monitor) : Prop :=
  NextCheck mon < t ∧ ¬ cold t mon.

(** A Monitor whose interval was never set. *)
Definition ex_zero_mon : Monitor :=
  {| Id := "monitor-0003"; HostId := "host-0000001"; Interval := 0;
     MonJob := {| AgentId := "e"; Agent := 0 |};
     LastCheck := ex_T0; NextCheck := ex_T0; LastPoints := [] |}.

(** * Memory statistics ([package agento], [getMemInfo] and [GetMemoryStats]) *)

(** ** Go string functions used by the parser *)

(** [strings.Index(s, ":")] and the like for a one-byte separator: the
    position of its first occurrence, [None] for -1. *)
Fixpoint IndexByte (c : ascii) (s : string) : option nat :=
  match s with
  | EmptyString => None
  | String a rest =>
      if Ascii.eqb a c then Some O
      else match IndexByte c rest with
           | Some n => Some (S n)
           | None => None
           end
  end.

(** The slices [s[:n]] and [s[n:]], for [n] within the string. *)
Fixpoint slice_to (n : nat) (s : string) : string :=
  match n, s with
  | S n', String a rest => String a (slice_to n' rest)
  | _, _ => EmptyString
  end.

Fixpoint slice_from (n : nat) (s : string) : string :=
  match n, s with
  | S n', String _ rest => slice_from n' rest
  | _, _ => s
  end.

(** [strings.Trim(s, cutset)] for a cutset of one byte. *)
Fixpoint TrimLeft (c : ascii) (s : string) : string :=
  match s with
  | EmptyString => EmptyString
  | String a rest => if Ascii.eqb a c then TrimLeft c rest else s
  end.

Fixpoint TrimRight (c : ascii) (s : string) : string :=
  match s with
  | EmptyString => EmptyString
  | String a rest =>
      match TrimRight c rest with
      | EmptyString => if Ascii.eqb a c then EmptyString else String a EmptyString
      | kept => String a kept
      end
  end.

Definition Trim (c : ascii) (s : string) : string := TrimRight c (TrimLeft c s).

(** [strings.Split(s, sep)] for a one-byte separator: one more piece than
    there are separators, the empty string giving one empty piece. *)
Fixpoint Split (c : ascii) (s : string) : list string :=
  match s with
  | EmptyString => [EmptyString]
  | String a rest =>
      if Ascii.eqb a c then EmptyString :: Split c rest
      else match Split c rest with
           | piece :: pieces => String a piece :: pieces
           | [] => [String a EmptyString]
           end
  end.

(** The digits of [strconv.ParseUint] in base 10, accumulated from the left. *)
Definition digit_of (c : ascii) : option Z :=
  let n := nat_of_ascii c in
  if (48 <=? n)%nat && (n <=? 57)%nat then Some (Z.of_nat (n - 48)) else None.

Fixpoint digits_value (acc : Z) (s : string) : option Z :=
  match s with
  | EmptyString => Some acc
  | String c rest =>
      match digit_of c with
      | Some d => digits_value (acc * 10 + d) rest
      | None => None
      end
  end.

(** [strconv.ParseInt(s, 10, 64)]: [Some v] when the error is nil. An empty
    string, a sign alone, a byte that is no decimal digit (syntax error) and
    a value outside int64 (range error) all give an error. *)
Definition ParseInt (s : string) : option Z :=
  match s with
  | EmptyString => None
  | String c rest =>
      let neg := Ascii.eqb c "-" in
      let body := if Ascii.eqb c "+" || Ascii.eqb c "-" then rest else s in
      match body with
      | EmptyString => None
      | _ =>
          match digits_value 0 body with
          | None => None
          | Some un =>
              if neg then (if un <=? 2 ^ 63 then Some (- un) else None)
              else (if un <? 2 ^ 63 then Some un else None)
          end
      end
  end.

(** ** [getMemInfo], lines 23-63 *)

(** The body of the scanner loop on one line of the file. *)
Definition meminfo_line (text : string) (m : gmap string Z) : gmap string Z :=
  match IndexByte ":" text with
  | None => m
  | Some n =>
      let key := slice_to n text in
      let data := Split " " (Trim " " (slice_from (n + 1) text)) in
      match data with
      | [d0] =>
          match ParseInt d0 with
          | None => m
          | Some value => <[key := value]> m
          end
      | [d0; d1] =>
          if String.eqb d1 "kB" then
            match ParseInt d0 with
            | None => m
            | Some value => <[key := value]> m
            end
          else m
      | _ => m
      end
  end.

(** [file] is what opening and scanning /proc/meminfo gives: [None] when
    [os.Open] fails, else the lines in order. *)
Definition getMemInfo (file : option (list string)) : gmap string Z :=
  match file with
  | None => ∅
  | Some lines => fold_left (λ m text, meminfo_line text m) lines ∅
  end.

Record MemoryStats := {
  Used : Z; Free : Z; Shared : Z; Buffers : Z; Cached : Z; SwapUsed : Z; SwapFree : Z;
}.

(** A map read at a key that is absent gives the zero value. *)
Definition at_key (m : gmap string Z) (k : string) : Z := default 0 (m !! k).

(** [GetMemoryStats], lines 65-79; int64 subtraction wraps. *)
Definition GetMemoryStats (file : option (list string)) : MemoryStats :=
  let meminfo := getMemInfo file in
  {| Used := wrap64 (wrap64 (wrap64 (at_key meminfo "MemTotal" - at_key meminfo "MemFree")
                             - at_key meminfo "Buffers") - at_key meminfo "Cached");
     Free := at_key meminfo "MemFree";
     Shared := at_key meminfo "Shmem";
     Buffers := at_key meminfo "Buffers";
     Cached := at_key meminfo "Cached";
     SwapUsed := wrap64 (at_key meminfo "SwapTotal" - at_key meminfo "SwapFree");
     SwapFree := at_key meminfo "SwapFree" |}.

Definition spaces (n : nat) : string := string_of_list_ascii (repeat " "%char n).

(** The head of a /proc/meminfo as the kernel prints it. *)
Definition ex_meminfo : list string :=
  [ "MemTotal:       16384256 kB";
    "MemFree:         1048576 kB";
    "Buffers:          524288 kB";
    "Cached:          4194304 kB";
    "SwapTotal:       2097152 kB";
    "SwapFree:        2097152 kB";
    "Shmem:            131072 kB";
    "HugePages_Total:       0" ].

(** * The munin plugin runner ([plugins/agents/muninpluginrunner]) *)

Section Munin.

(** [float64]; the runner only stores and passes on the values. *)
Variable float64 : Type.

(** [strconv.ParseFloat(s, 64)]: the value and the error. *)
Variable ParseFloat : string → float64 * option error.

(** [FindAllStringSubmatch] of the pattern of line 45 on one line. The
    pattern is anchored at both ends, so it matches at most once;
    [Some (k, n)] stands for one match with submatches 1 and 2. *)
Variable value_line : string → option (string * string).

(** [plugins.SimplePoint(key, value)], a pointer to a new point. *)
Variable MPoint : Type.
Variable SimplePoint : string → float64 → MPoint.

Record MuninPluginRunner := {
  Command : string;
  Arguments : string;
  Prefix : string;
  kv : list (string * float64);
}.

Definition set_kv (v : list (string * float64)) (m : MuninPluginRunner) : MuninPluginRunner :=
  {| Command := Command m; Arguments := Arguments m; Prefix := Prefix m; kv := v |}.

(** The scanner loop of [Gather], lines 44-61, on the lines left to read. *)
Fixpoint gather_lines (lines : list string) (m : MuninPluginRunner)
  : MuninPluginRunner * option error :=
  match lines with
  | [] => (m, None)
  | text :: rest =>
      match value_line text with
      | Some (k, n) =>
          match ParseFloat n with
          | (_, Some err) => (m, Some err)
          | (value, None) => gather_lines rest (set_kv (kv m ++ [(k, value)]) m)
          end
      | None => gather_lines rest m
      end
  end.

(** [Gather], lines 37-64. [exec] is what [transport.Exec] returns: the
    lines of the output stream and the error. *)
Definition Gather (exec : list string * option error) (m : MuninPluginRunner)
  : MuninPluginRunner * option error :=
  match exec with
  | (_, Some err) => (m, Some err)
  | (stdout, None) => gather_lines stdout m
  end.

(** The name given to a value, lines 72-77. *)
Definition point_key (m : MuninPluginRunner) (k : string) : string :=
  if String.eqb (Prefix m) "" then k else (Prefix m ++ "." ++ k)%string.

(** [GetPoints], lines 67-82: a slice of [len(m.kv)] nil pointers, filled
    by index. *)
Definition GetPoints (m : MuninPluginRunner) : list (option MPoint) :=
  fold_left
    (λ points (ikv : nat * (string * float64)),
       <[ikv.1 := Some (SimplePoint (point_key m ikv.2.1) ikv.2.2)]> points)
    (zip (seq 0 (length (kv m))) (kv m))
    (replicate (length (kv m)) None).

(** The key/value pairs of the matching lines of an output, in order. *)
Fixpoint collected (lines : list string) : list (string * float64) :=
  match lines with
  | [] => []
  | text :: rest =>
      match value_line text with
      | Some (k, n) => (k, (ParseFloat n).1) :: collected rest
      | None => collected rest
      end
  end.

End Munin.

Arguments Command {float64} _.
Arguments Arguments {float64} _.
Arguments Prefix {float64} _.
Arguments kv {float64} _.
Arguments set_kv {float64} _ _.
Arguments gather_lines {float64} _ _ _ _.
Arguments Gather {float64} _ _ _ _.
Arguments point_key {float64} _ _.
Arguments GetPoints {float64 MPoint} _ _.
Arguments collected {float64} _ _ _.

(** * The report endpoint ([package server]) *)

(** A call that returns or panics. *)
Inductive Result (A : Type) :=
| Returned (a : A)
| Panicked (msg : string).
Arguments Returned {A} a.
Arguments Panicked {A} msg.

(** A point as far as the server touches it: its [Tags] map, which may be
    nil. *)
Record TPoint := {
  TName : string;
  TTags : option (gmap string string);
  TFields : list (string * Z);
}.

(** A value of [plugins.Results]: a [*hostname.Hostname] (possibly a nil
    pointer) or a plugin of another type. *)
Inductive ResultValue :=
| HostnameValue (h : option string)
| OtherValue (kind : string).

(** [string( *stats["hostname"].( *hostname.Hostname))]: the type assertion
    panics on a missing key (nil interface) and on another type, the
    dereference on a nil pointer. *)
Definition hostname_of (stats : gmap string ResultValue) : Result string :=
  match stats !! "hostname" with
  | Some (HostnameValue (Some h)) => Returned h
  | Some (HostnameValue None) =>
      Panicked "invalid memory address or nil pointer dereference"
  | Some (OtherValue _) => Panicked "interface conversion: not *hostname.Hostname"
  | None => Panicked "interface conversion: interface is nil"
  end.

(** The body of the loop of lines 60-66 on one point. *)
Definition tag_point (hostname id : string) (p : TPoint) : Result TPoint :=
  match TTags p with
  | None => Panicked "assignment to entry in nil map"
  | Some tags =>
      let tags := <["hostname" := hostname]> tags in
      let tags := if negb (String.eqb id localHostHex) then <["id" := id]> tags else tags in
      Returned {| TName := TName p; TTags := Some tags; TFields := TFields p |}
  end.

Fixpoint tag_points (hostname id : string) (points : list TPoint) : Result (list TPoint) :=
  match points with
  | [] => Returned []
  | p :: rest =>
      match tag_point hostname id p with
      | Panicked msg => Panicked msg
      | Returned q =>
          match tag_points hostname id rest with
          | Panicked msg => Panicked msg
          | Returned qs => Returned (q :: qs)
          end
      end
  end.

(** [sendToInflux], lines 55-69. [points] is what [stats.GetPoints()]
    returns, [write] the answer of [s.tsdb.WritePoints]. The result is the
    batch handed to the database and the error returned. *)
Definition sendToInflux (points : list TPoint) (write : option error)
    (stats : gmap string ResultValue) (id : string) : Result (list TPoint * option error) :=
  match hostname_of stats with
  | Panicked msg => Panicked msg
  | Returned hostname =>
      match tag_points hostname id points with
      | Panicked msg => Panicked msg
      | Returned tagged => Returned (tagged, write)
      end
  end.

(** What [s.db.ResolveKey] resolves a key to: an [userdb.Account] or a
    subject of another kind, each with its [GetId()]. *)
Inductive Subject :=
| AccountSubject (id : string)
| OtherSubject (id : string).

Definition GetId (s : Subject) : string :=
  match s with AccountSubject id | OtherSubject id => id end.

(** Errors of [s.store.GetHostByName]: [userdb.ErrorNoAccess] or another. *)
Inductive LookupError :=
| ErrorNoAccess
| LookupFailed (msg : string).

Record Request := {
  Method : string;
  Secret : string;                    (* header X-Agento-Secret *)
}.

(** The answers of the handler's collaborators for one request. *)
Record ReportEnv := {
  resolve : Subject + error;                       (* s.db.ResolveKey(key) *)
  bound : (gmap string ResultValue * list TPoint) + error;
                                      (* c.BindJSON(&results), and results.GetPoints() *)
  has_store : bool;                                (* s.store != nil *)
  lookup : option LookupError;                     (* s.store.GetHostByName *)
  added : option error;                            (* s.store.AddHost *)
  written : option error;                          (* s.tsdb.WritePoints *)
}.

(** Calls made by the handler, in order. *)
Inductive SEffect :=
| SHeader (key value : string)
| SString (code : Z) (body : string)
| SAbortWithError (code : Z) (err : error)
| SResolveKey (key : string)
| SBindJSON
| SGetHostByName (account : string) (name : string)
| SAddHost (account : string) (name : string) (transportID : string)
| SWritePoints (points : list TPoint).

(** Lines 119-125: the write and the answer to it. *)
Definition report_send (env : ReportEnv) (sub : Subject)
    (results : gmap string ResultValue) (points : list TPoint) (sofar : list SEffect)
  : list SEffect * option string :=
  match sendToInflux points (written env) results (GetId sub) with
  | Panicked msg => (sofar, Some msg)
  | Returned (tagged, Some err) =>
      (sofar ++ [SWritePoints tagged; SAbortWithError 500 err], None)
  | Returned (tagged, None) =>
      (sofar ++ [SWritePoints tagged; SString 200 "Got it"], None)
  end.

(** [reportHandler], lines 71-126: the calls made and, if the handler
    panics, the panic. *)
Definition reportHandler (env : ReportEnv) (req : Request) : list SEffect * option string :=
  if negb (String.eqb (Method req) "POST") then
    ([SHeader "Allow" "POST"; SString 405 "only POST allowed"], None)
  else
    let e1 := [SResolveKey (Secret req)] in
    match resolve env with
    | inr err => (e1 ++ [SString 403 (Error err)], None)
    | inl (OtherSubject id) =>
        (e1 ++ [SString 403 "Only account keys can report metrics"], None)
    | inl (AccountSubject id) =>
        let sub := AccountSubject id in
        let e2 := e1 ++ [SBindJSON] in
        match bound env with
        | inr err => (e2 ++ [SString 400 (Error err)], None)
        | inl (results, points) =>
            if has_store env then
              match hostname_of results with
              | Panicked msg => (e2, Some msg)
              | Returned hostname =>
                  let e3 := e2 ++ [SGetHostByName id hostname] in
                  match lookup env with
                  | Some ErrorNoAccess =>
                      (e3 ++ [SString 403 "The hostname belongs to another account"], None)
                  | Some (LookupFailed _) =>
                      let e4 := e3 ++ [SAddHost id hostname "localtransport"] in
                      match added env with
                      | Some _ => (e4 ++ [SString 500 "Cannot add host"], None)
                      | None => report_send env sub results points e4
                      end
                  | None => report_send env sub results points e3
                  end
              end
            else report_send env sub results points e2
        end
    end.

(** The answers sent to the client. *)
Definition is_response (e : SEffect) : bool :=
  match e with
  | SString _ _ | SAbortWithError _ _ => true
  | _ => false
  end.

Definition is_write (e : SEffect) : bool :=
  match e with
  | SWritePoints _ => true
  | _ => false
  end.

Definition is_add_host (e : SEffect) : bool :=
  match e with
  | SAddHost _ _ _ => true
  | _ => false
  end.

(** A report of one point from the host "web1", and the answers of the
    collaborators when everything goes well. *)
Definition ex_tpoint : TPoint :=
  {| TName := "misc.AvailableEntropy"; TTags := Some ∅; TFields := [("value", 3071)] |}.

Definition ex_results : gmap string ResultValue :=
  {[ "hostname" := HostnameValue (Some "web1") ]}.

Definition ex_report_env : ReportEnv :=
  {| resolve := inl (AccountSubject "5650a1c2e4b0f3a9d8c7b6a5");
     bound := inl (ex_results, [ex_tpoint]);
     has_store := true; lookup := None; added := None; written := None |}.

(** The same report without its "hostname" entry. *)
Definition ex_nameless_env : ReportEnv :=
  {| resolve := inl (AccountSubject "5650a1c2e4b0f3a9d8c7b6a5");
     bound := inl (∅, [ex_tpoint]);
     has_store := true; lookup := None; added := None; written := None |}.

Definition ex_request : Request := {| Method := "POST"; Secret := "s3cr3t" |}.

(** * Properties *)

(** ** Hexadecimal identifiers *)

Lemma fromHexChar_is_hex c n : fromHexChar c = Some n → is_hex_char c = true.
Proof.
  destruct c as [[] [] [] [] [] [] [] []]; vm_compute; congruence.
Qed.

Lemma is_hex_fromHexChar c : is_hex_char c = true → is_Some (fromHexChar c).
Proof.
  destruct c as [[] [] [] [] [] [] [] []]; vm_compute; intros H;
    first [discriminate H | eexists; reflexivity].
Qed.

Lemma decode_encode_char c :
  fromHexChar (hexdigit (nat_of_ascii c / 16)) = Some (nat_of_ascii c / 16)%nat ∧
  fromHexChar (hexdigit (nat_of_ascii c mod 16)) = Some (nat_of_ascii c mod 16)%nat.
Proof.
  destruct c as [[] [] [] [] [] [] [] []]; vm_compute; split; reflexivity.
Qed.

Lemma string_pair_ind (P : string → Prop) :
  P EmptyString →
  (∀ a, P (String a EmptyString)) →
  (∀ a b s, P s → P (String a (String b s))) →
  ∀ s, P s.
Proof.
  intros H0 H1 H2.
  cut (∀ s, P s ∧ ∀ a, P (String a s)).
  { intros H s. apply H. }
  induction s as [|c s [IH1 IH2]]; split; auto.
Qed.

Lemma DecodeString_hex s d :
  DecodeString s = Some d → Forall (λ c, is_hex_char c = true) (list_ascii_of_string s).
Proof.
  revert d. induction s as [| a | a b s IH] using string_pair_ind; intros d; simpl.
  - constructor.
  - discriminate.
  - destruct (fromHexChar a) eqn:Ha; [|discriminate].
    destruct (fromHexChar b) eqn:Hb; [|discriminate].
    destruct (DecodeString s) eqn:Hs; [|discriminate].
    intros _. repeat constructor; eauto using fromHexChar_is_hex.
Qed.

Lemma hex_DecodeString s :
  Nat.Even (String.length s) →
  Forall (λ c, is_hex_char c = true) (list_ascii_of_string s) →
  is_Some (DecodeString s).
Proof.
  induction s as [| a | a b s IH] using string_pair_ind; simpl.
  - eauto.
  - intros [k Hk]. lia.
  - intros [k Hk] Hall.
    apply Forall_cons in Hall as [Ha Hall]. apply Forall_cons in Hall as [Hb Hall].
    destruct (is_hex_fromHexChar a Ha) as [x ->].
    destruct (is_hex_fromHexChar b Hb) as [y ->].
    destruct IH as [d ->]; [exists (k - 1)%nat; lia | done | eauto].
Qed.

(** [bson.IsObjectIdHex] accepts exactly the well-formed identifiers. *)
Lemma IsObjectIdHex_spec s : IsObjectIdHex s = true ↔ well_formed_hex_id s.
Proof.
  unfold IsObjectIdHex, well_formed_hex_id.
  rewrite andb_true_iff, Nat.eqb_eq, bool_decide_eq_true. split.
  - intros [Hlen [d Hd]]. eauto using DecodeString_hex.
  - intros [Hlen Hall]. split; [done|].
    apply hex_DecodeString; [|done]. rewrite Hlen. by exists 12%nat.
Qed.

Lemma DecodeString_EncodeToString b : DecodeString (EncodeToString b) = Some b.
Proof.
  induction b as [|c b IH]; [done|]. cbn [EncodeToString DecodeString].
  destruct (decode_encode_char c) as [-> ->]. rewrite IH. do 2 f_equal.
  rewrite Nat.mul_comm, <- Nat.div_mod_eq. apply ascii_nat_embedding.
Qed.

Lemma length_EncodeToString b :
  String.length (EncodeToString b) = (2 * String.length b)%nat.
Proof. induction b as [|c b IH]; simpl; lia. Qed.

Lemma IsObjectIdHex_Hex id : String.length id = 12%nat → IsObjectIdHex (Hex id) = true.
Proof.
  intros Hlen. unfold IsObjectIdHex, Hex.
  rewrite length_EncodeToString, Hlen, DecodeString_EncodeToString.
  apply andb_true_iff. split; [done|]. apply bool_decide_eq_true. eauto.
Qed.

Lemma ObjectIdHex_Hex id : String.length id = 12%nat → ObjectIdHex (Hex id) = Some id.
Proof.
  intros Hlen. unfold ObjectIdHex, Hex.
  by rewrite DecodeString_EncodeToString, Hlen.
Qed.

(** ** [bson.NewObjectId] *)

Lemma byte_of_value z : Z.of_nat (nat_of_ascii (byte_of z)) = z mod 256.
Proof.
  unfold byte_of. assert (0 ≤ z mod 256 < 256) by (apply Z.mod_pos_bound; lia).
  rewrite nat_ascii_embedding by lia. lia.
Qed.

Lemma NewObjectId_length unix g : String.length (NewObjectId unix g).1 = 12%nat.
Proof. unfold NewObjectId. by destruct (machineId g) as [[m0 m1] m2]. Qed.

Lemma counter_bytes i :
  (i / 2 ^ 16) mod 256 * 2 ^ 16 + (i / 2 ^ 8) mod 256 * 2 ^ 8 + i mod 256 = i mod 2 ^ 24.
Proof.
  change (2 ^ 16) with 65536. change (2 ^ 8) with 256. change (2 ^ 24) with 16777216.
  Z.div_mod_to_equations. lia.
Qed.

Lemma mod_32_24 z : (z mod 2 ^ 32) mod 2 ^ 24 = z mod 2 ^ 24.
Proof.
  change (2 ^ 32) with 4294967296. change (2 ^ 24) with 16777216.
  Z.div_mod_to_equations. lia.
Qed.

(** The identifier carries the incremented counter in its last three
    bytes, and the counter is left incremented. *)
Lemma NewObjectId_counter unix g :
  oid_counter (NewObjectId unix g).1 = (objectIdCounter g + 1) mod 2 ^ 24 ∧
  objectIdCounter (NewObjectId unix g).2 mod 2 ^ 24 = (objectIdCounter g + 1) mod 2 ^ 24.
Proof.
  unfold NewObjectId. destruct (machineId g) as [[m0 m1] m2]. simpl fst. simpl snd.
  split; [|apply mod_32_24].
  unfold oid_counter. cbn [string_of_list_ascii list_ascii_of_string].
  rewrite !byte_of_value, counter_bytes. apply mod_32_24.
Qed.

(** ** Documents as the store keeps them *)

Lemma bson_datetime_id t : bson_datetime t = t ↔ whole_ms t.
Proof. unfold bson_datetime, whole_ms. Z.div_mod_to_equations. lia. Qed.

Lemma bson_datetime_bounds t : t - 1000000 < bson_datetime t ≤ t.
Proof. unfold bson_datetime. Z.div_mod_to_equations. lia. Qed.

Lemma bson_point_id p : bson_point p = p ↔ whole_ms (PointTime p).
Proof.
  rewrite <- bson_datetime_id. destruct p as [m tg t f]. unfold bson_point. simpl.
  split; [by intros [= ?]|by intros ->].
Qed.

Lemma bson_points_id ps :
  map bson_point ps = ps ↔ Forall (λ p, whole_ms (PointTime p)) ps.
Proof.
  induction ps as [|p ps IH]; simpl.
  - split; [constructor|done].
  - rewrite Forall_cons, <- IH, <- bson_point_id.
    split; [by intros [= ? ?]|by intros [-> ->]].
Qed.

Lemma bson_monitor_id M :
  bson_monitor M = M ↔
  whole_ms (LastCheck M) ∧ whole_ms (NextCheck M) ∧
  Forall (λ p, whole_ms (PointTime p)) (LastPoints M).
Proof.
  rewrite <- !bson_datetime_id, <- bson_points_id.
  destruct M as [i h iv j lc nc lp]. unfold bson_monitor. simpl.
  split; [by intros [= ? ? ?]|by intros (-> & -> & ->)].
Qed.

(** ** The collection primitives *)

Lemma has_id_true id m : has_id id m = true ↔ Id m = id.
Proof. unfold has_id. apply String.eqb_eq. Qed.

Lemma replace_id_find id doc c c' :
  replace_id id doc c = Some c' → Id doc = id → List.find (has_id id) c' = Some doc.
Proof.
  intros Hrep Hid. revert c' Hrep.
  induction c as [|m c IH]; intros c'; simpl; [discriminate|].
  destruct (has_id id m) eqn:Hm.
  - intros [= <-]. simpl. by rewrite (proj2 (has_id_true id doc) Hid).
  - destruct (replace_id id doc c) as [r|]; [|discriminate].
    intros [= <-]. simpl. rewrite Hm. by apply IH.
Qed.

Lemma replace_id_ids id doc c c' :
  replace_id id doc c = Some c' → Id doc = id → map Id c' = map Id c.
Proof.
  intros Hrep Hid. revert c' Hrep.
  induction c as [|m c IH]; intros c'; simpl; [discriminate|].
  destruct (has_id id m) eqn:Hm.
  - intros [= <-]. simpl. f_equal. apply has_id_true in Hm. congruence.
  - destruct (replace_id id doc c) as [r|]; [|discriminate].
    intros [= <-]. simpl. f_equal. by apply IH.
Qed.

Lemma remove_id_ids id c c' :
  remove_id id c = Some c' →
  ∃ l1 l2, map Id c = l1 ++ id :: l2 ∧ map Id c' = l1 ++ l2.
Proof.
  revert c'. induction c as [|m c IH]; intros c'; simpl; [discriminate|].
  destruct (has_id id m) eqn:Hm.
  - intros [= <-]. apply has_id_true in Hm. exists [], (map Id c). by rewrite Hm.
  - destruct (remove_id id c) as [r|]; [|discriminate].
    intros [= <-]. destruct (IH r eq_refl) as (l1 & l2 & H1 & H2).
    exists (Id m :: l1), l2. simpl. by rewrite H1, H2.
Qed.

Lemma existsb_has_id_false id c : existsb (has_id id) c = false → id ∉ map Id c.
Proof.
  induction c as [|m c IH]; simpl; [intros _; apply not_elem_of_nil|].
  intros [Hm Hc]%orb_false_iff. apply not_elem_of_cons. split; [|by apply IH].
  intros ->. unfold has_id in Hm. by rewrite String.eqb_refl in Hm.
Qed.

(** ** Administrative operations *)

(** C5. [DeleteMonitor] called with a string that is not a well-formed
    identifier (24 hexadecimal characters) returns [ErrorInvalidId] and
    leaves the whole state as it was: the collections are not touched and
    the trace gains no broadcast. *)
Theorem DeleteMonitor_invalid_id flt id s :
  ¬ well_formed_hex_id id →
  DeleteMonitor flt id s = Running (s, Some ErrorInvalidId).
Proof.
  intros Hbad. unfold DeleteMonitor.
  destruct (IsObjectIdHex id) eqn:Hok; [|done].
  by apply IsObjectIdHex_spec in Hok.
Qed.

Lemma UpdateMonitor_ok flt M s s' :
  UpdateMonitor flt M s = (s', None) →
  List.find (has_id (Id M)) (monitorCollection s') = Some (bson_monitor M).
Proof.
  unfold UpdateMonitor, UpdateId. destruct flt as [e|]; simpl; [by intros [= _ ?]|].
  destruct (replace_id _ _ _) as [c'|] eqn:Hrep; simpl; [|by intros [= _ ?]].
  intros [= <-]. simpl. by eapply replace_id_find.
Qed.



(** C10. [UpdateMonitor] first broadcasts "monchange" with the Monitor and
    only then sends the write to the collection; the broadcast is in the
    trace whatever the write returns. When the write fails, its error is
    returned, the collection is unchanged, and the broadcast has been
    made all the same. *)
Theorem UpdateMonitor_broadcasts_before_write mon s :
  (∀ flt,
     trace (UpdateMonitor flt mon s).1 =
       trace s ++ [Broadcast "monchange" (PMonitor mon);
                   StoreWrite (OpUpdateId (Id mon) mon) (UpdateMonitor flt mon s).2]) ∧
  (∀ e,
     (UpdateMonitor (Some e) mon s).2 = Some e ∧
     monitorCollection (UpdateMonitor (Some e) mon s).1 = monitorCollection s ∧
     trace (UpdateMonitor (Some e) mon s).1 =
       trace s ++ [Broadcast "monchange" (PMonitor mon);
                   StoreWrite (OpUpdateId (Id mon) mon) (Some e)]).
Proof.
  split.
  - intros flt. unfold UpdateMonitor.
    destruct (UpdateId _ _ _ _) as [c err]. simpl. by rewrite <- app_assoc.
  - intros e. unfold UpdateMonitor. simpl. by rewrite <- app_assoc.
Qed.

(** ** The loop *)

(** C8. A tick whose snapshot fetch fails touches no Monitor: collections,
    in-flight map and goroutines stay as they were and nothing is left to
    scan; the only effect is one log line. The loop is then ready for the
    next tick, whatever that tick brings. *)
Theorem tick_fetch_failure now e s :
  pending s = [] →
  let s' := tick now (Some e) s in
  monitorCollection s' = monitorCollection s ∧
  hostCollection s' = hostCollection s ∧
  inFlight s' = inFlight s ∧
  goroutines s' = goroutines s ∧
  pending s' = [] ∧
  trace s' = trace s ++ [Log Red "monitor" "Error getting monitors from Mongo: %s"] ∧
  ∀ now' flt', step s' (tick now' flt' s').
Proof.
  intros Hp. simpl. repeat split; try done.
  intros now' flt'. by apply step_tick.
Qed.

Lemma Loop_startup_without_transport gh_flt ins_flt (transports : gmap string (unit → PluginValue)) s s0 h e :
  GetHost gh_flt localHostHex s = Running (s0, h, Some e) →
  transports !! "localtransport" = None →
  Loop_startup gh_flt ins_flt transports s =
    Crashed (emit (Log Red "monitor" "localtransport plugin not found") s0)
            "invalid memory address or nil pointer dereference".
Proof. intros Hgh Hp. unfold Loop_startup. by rewrite Hgh, Hp. Qed.

(** ** Goroutines and the in-flight map *)

Ltac unfold_ops :=
  unfold scan_step, scan_body, tick, GetAllMonitors, GetMonitor, UpdateMonitor,
    AddMonitor, DeleteMonitor, FindAll, FindId, UpdateId, Insert, RemoveId, Int63n in *.

Ltac crush_op := unfold_ops; repeat case_match; simplify_eq/=.

(** What one statement of a goroutine does to its own record and to the
    in-flight map. *)
Lemma task_step_cases io g s s' og :
  task_step io g s = (s', og) →
  goroutines s' = goroutines s ∧ pending s' = pending s ∧ issued s' = issued s ∧
  match og with
  | Some g' => g_pc g ≠ L200 ∧ Id (g_mon g') = Id (g_mon g) ∧
               remaining (g_pc g) = S (remaining (g_pc g')) ∧
               inFlight s' = inFlight s
  | None => g_pc g = L200 ∧ inFlight s' = delete (Id (g_mon g)) (inFlight s)
  end.
Proof.
  unfold task_step. intros H.
  destruct (g_pc g) eqn:Hpc; crush_op; done.
Qed.

(** How a transition changes the in-flight map and the goroutines: not at
    all, by one statement of a goroutine that is not its last, by one
    dispatch, or by the last statement of one goroutine. *)
Lemma step_goroutines_cases s s' :
  step s s' →
  (inFlight s' = inFlight s ∧ goroutines s' = goroutines s) ∨
  (∃ i g g', goroutines s !! i = Some g ∧
             Id (g_mon g') = Id (g_mon g) ∧
             remaining (g_pc g) = S (remaining (g_pc g')) ∧
             inFlight s' = inFlight s ∧
             goroutines s' = <[i := g']> (goroutines s)) ∨
  (∃ mon, inFlight s !! Id mon = None ∧
          inFlight s' = <[Id mon := true]> (inFlight s) ∧
          goroutines s' = goroutines s ++ [spawn mon]) ∨
  (∃ i g, goroutines s !! i = Some g ∧ g_pc g = L200 ∧
          inFlight s' = delete (Id (g_mon g)) (inFlight s) ∧
          goroutines s' = delete i (goroutines s)).
Proof.
  destruct 1 as [now flt s Hp|v flt s s' Hp Hscan|i io s s' Hg|flt s|flt id s s' m err Hget
                |flt mon s|unix flt mon s|flt id s s' err Hdel].
  - left. crush_op; done.
  - destruct (pending s) as [|mon rest] eqn:Hpend; [done|].
    unfold scan_step in Hscan. rewrite Hpend in Hscan. unfold scan_body in Hscan.
    simpl in Hscan.
    destruct (inFlight s !! Id mon) eqn:Hfl; [left; by simplify_eq|].
    destruct (_ && _).
    + left. crush_op; done.
    + destruct (_ <? 0); [|left; by simplify_eq].
      do 2 right; left. exists mon. by simplify_eq.
  - unfold goroutine_step in Hg.
    destruct (goroutines s !! i) as [g|] eqn:Hi; [|done].
    destruct (task_step io g s) as [s1 og] eqn:Hts.
    apply task_step_cases in Hts as (Hgs & _ & _ & Hog).
    destruct og as [g'|]; simplify_eq/=.
    + destruct Hog as (_ & Hid & Hrem & Hfl). right; left.
      exists i, g, g'. by rewrite Hgs.
    + destruct Hog as [Hpc Hfl]. do 3 right. exists i, g. by rewrite Hgs.
  - left. crush_op; done.
  - left. crush_op; done.
  - left. crush_op; done.
  - left. crush_op; done.
  - left. crush_op; done.
Qed.

Lemma step_flight_cases s s' :
  step s s' →
  (inFlight s' = inFlight s ∧ running_ids s' = running_ids s) ∨
  (∃ mon, inFlight s !! Id mon = None ∧
          inFlight s' = <[Id mon := true]> (inFlight s) ∧
          goroutines s' = goroutines s ++ [spawn mon]) ∨
  (∃ i g, goroutines s !! i = Some g ∧ g_pc g = L200 ∧
          inFlight s' = delete (Id (g_mon g)) (inFlight s) ∧
          goroutines s' = delete i (goroutines s)).
Proof.
  intros Hstep. unfold running_ids.
  destruct (step_goroutines_cases _ _ Hstep)
    as [[Hfl Hgs]|[(i & g & g' & Hi & Hid & _ & Hfl & Hgs)|[Hspawn|Hend]]]; auto.
  - left. by rewrite Hgs.
  - left. split; [done|]. rewrite Hgs, list_fmap_insert, Hid.
    apply list_insert_id. by rewrite list_lookup_fmap, Hi.
Qed.

(** A goroutine stays, no further from its end than it was, until its own
    last statement, after which its Monitor is not marked any more. *)
Lemma step_keeps_goroutine s s' i g :
  step s s' →
  goroutines s !! i = Some g →
  (∃ j g', goroutines s' !! j = Some g' ∧ Id (g_mon g') = Id (g_mon g) ∧
           (remaining (g_pc g') ≤ remaining (g_pc g))%nat) ∨
  inFlight s' !! Id (g_mon g) = None.
Proof.
  intros Hstep Hi.
  destruct (step_goroutines_cases _ _ Hstep)
    as [[Hfl Hgs]|[(k & gk & g' & Hk & Hid & Hrem & Hfl & Hgs)
       |[(mon & _ & _ & Hgs)|(k & gk & Hk & _ & Hfl & Hgs)]]]; rewrite Hgs.
  - left. by exists i, g.
  - left. destruct (decide (k = i)) as [->|Hne].
    + exists i, g'. rewrite list_lookup_insert_eq by (by eapply lookup_lt_Some).
      assert (gk = g) as -> by congruence. split; [done|]. split; [done|lia].
    + exists i, g. by rewrite list_lookup_insert_ne.
  - left. exists i, g. by rewrite lookup_app_l by (by eapply lookup_lt_Some).
  - destruct (decide (k = i)) as [->|Hne].
    + right. assert (gk = g) as -> by congruence. rewrite Hfl. apply lookup_delete_eq.
    + left. destruct (decide (i < k)%nat).
      * exists i, g. by rewrite list_lookup_delete_lt.
      * exists (i - 1)%nat, g. rewrite list_lookup_delete_ge by lia.
        by replace (S (i - 1)) with i by lia.
Qed.

Lemma flight_inv_initial s : initial s → flight_inv s.
Proof.
  intros (Hfl & _ & Hg & _). unfold flight_inv, running_ids. rewrite Hfl, Hg. simpl.
  split; [constructor|]. intros id. rewrite lookup_empty, elem_of_nil.
  split; [by intros [? ?]|done].
Qed.

Lemma flight_inv_step s s' : step s s' → flight_inv s → flight_inv s'.
Proof.
  intros Hstep [Hnd Hin].
  destruct (step_flight_cases _ _ Hstep)
    as [[Hfl Hids]|[(mon & Hnone & Hfl & Hgs)|(i & g & Hi & Hpc & Hfl & Hgs)]].
  - unfold flight_inv. by rewrite Hfl, Hids.
  - assert (Hids : running_ids s' = running_ids s ++ [Id mon]).
    { unfold running_ids. by rewrite Hgs, map_app. }
    assert (Id mon ∉ running_ids s) as Hnotin.
    { intros Hel. apply Hin in Hel. rewrite Hnone in Hel. by destruct Hel. }
    unfold flight_inv. rewrite Hids, Hfl. split.
    + apply NoDup_app. repeat split; [done| |apply NoDup_singleton].
      intros x Hx ->%list_elem_of_singleton. done.
    + intros id. rewrite elem_of_app, list_elem_of_singleton, <- Hin.
      rewrite lookup_insert_is_Some. destruct (decide (Id mon = id)); intuition congruence.
  - assert (Hids : running_ids s' = delete i (running_ids s)).
    { unfold running_ids. rewrite Hgs. apply list_fmap_delete. }
    assert (Hgi : running_ids s !! i = Some (Id (g_mon g))).
    { unfold running_ids. by rewrite list_lookup_fmap, Hi. }
    unfold flight_inv. rewrite Hids, Hfl. split.
    + eapply sublist_NoDup; [done|apply sublist_delete].
    + intros id. rewrite lookup_delete_is_Some, Hin. split.
      * intros [Hne Hel]. apply list_elem_of_lookup in Hel as [j Hj].
        assert (j ≠ i) by congruence.
        apply list_elem_of_lookup.
        destruct (decide (j < i)%nat).
        -- exists j. by rewrite list_lookup_delete_lt.
        -- exists (j - 1)%nat. rewrite list_lookup_delete_ge by lia.
           by replace (S (j - 1)) with j by lia.
      * intros Hel. apply list_elem_of_lookup in Hel as [j Hj]. split.
        -- intros <-. destruct (decide (j < i)%nat).
           ++ rewrite list_lookup_delete_lt in Hj by done.
              assert (j = i) by (eapply NoDup_lookup; eauto). lia.
           ++ rewrite list_lookup_delete_ge in Hj by lia.
              assert (S j = i) by (eapply NoDup_lookup; eauto). lia.
        -- apply list_elem_of_lookup. destruct (decide (j < i)%nat).
           ++ exists j. by rewrite list_lookup_delete_lt in Hj.
           ++ exists (S j). by rewrite list_lookup_delete_ge in Hj by lia.
Qed.

Lemma reachable_ind (P : State → Prop) :
  (∀ s, initial s → P s) →
  (∀ s s', step s s' → P s → P s') →
  ∀ s, reachable s → P s.
Proof.
  intros Hinit Hstep s (s0 & H0 & Hrtc).
  revert s Hrtc. apply rtc_ind_r; eauto.
Qed.

Lemma reachable_flight_inv s : reachable s → flight_inv s.
Proof. apply reachable_ind; eauto using flight_inv_initial, flight_inv_step. Qed.

(** C1. In every reachable state the running executions belong to pairwise
    distinct Monitors and each of them is marked in the in-flight map; and
    a scan that meets a Monitor whose identifier is marked moves on without
    any effect: no second entry, no second goroutine, no write. *)
Theorem at_most_one_execution_per_monitor s :
  reachable s →
  NoDup (running_ids s) ∧
  (∀ g, g ∈ goroutines s → is_Some (inFlight s !! Id (g_mon g))) ∧
  (∀ v flt mon rest,
     pending s = mon :: rest → is_Some (inFlight s !! Id mon) →
     scan_step v flt s = Running (set_pending rest s)).
Proof.
  intros Hreach. destruct (reachable_flight_inv _ Hreach) as [Hnd Hin].
  split; [done|]. split.
  - intros g Hg. apply Hin. unfold running_ids.
    apply (list_elem_of_fmap_2 (λ g, Id (g_mon g))), Hg.
  - intros v flt mon rest Hp [b Hb]. unfold scan_step, scan_body. rewrite Hp. simpl.
    by rewrite Hb.
Qed.

Lemma list_delete_insert {A} (l : list A) i x : delete i (<[i:=x]> l) = delete i l.
Proof. revert i. induction l as [|y l IH]; intros [|i]; simpl; f_equal; auto. Qed.

Lemma run_goroutine_finishes ios i n s g :
  goroutines s !! i = Some g →
  remaining (g_pc g) = n →
  ∃ s', run_goroutine n i ios s = Some s' ∧
        inFlight s' = delete (Id (g_mon g)) (inFlight s) ∧
        goroutines s' = delete i (goroutines s).
Proof.
  revert s g. induction n as [|n IH]; intros s g Hi Hn.
  { destruct (g_pc g); discriminate. }
  simpl. unfold goroutine_step. rewrite Hi.
  destruct (task_step (ios n) g s) as [s1 og] eqn:Hts.
  apply task_step_cases in Hts as (Hgs & _ & _ & Hog).
  destruct og as [g'|].
  - destruct Hog as (_ & Hid & Hrem & Hfl).
    edestruct (IH (set_goroutines (<[i:=g']> (goroutines s1)) s1) g')
      as (s' & Hrun & Hfl' & Hgs').
    + simpl. rewrite Hgs. apply list_lookup_insert_eq. by eapply lookup_lt_Some.
    + lia.
    + exists s'. split; [done|]. rewrite Hfl', Hgs'. simpl.
      by rewrite Hid, Hfl, Hgs, list_delete_insert.
  - destruct Hog as [Hpc Hfl]. rewrite Hpc in Hn. injection Hn as <-.
    eexists. split; [done|]. simpl. by rewrite Hgs.
Qed.

(** C4. In every reachable state each mark of the in-flight map is held by
    a live goroutine; every live goroutine, whatever [Job.Run], the
    update and the sink write return, runs its remaining statements to the
    end, and its last statement deletes the mark of its Monitor; and no
    transition of the scheduler takes a goroutine away or sets it back
    before that. *)
Theorem in_flight_mark_always_cleared s :
  reachable s →
  (∀ id, is_Some (inFlight s !! id) →
     ∃ i g, goroutines s !! i = Some g ∧ Id (g_mon g) = id) ∧
  (∀ i g ios, goroutines s !! i = Some g →
     ∃ s', run_goroutine (remaining (g_pc g)) i ios s = Some s' ∧
           inFlight s' !! Id (g_mon g) = None ∧
           goroutines s' = delete i (goroutines s)) ∧
  (∀ i g s', goroutines s !! i = Some g → step s s' →
     (∃ j g', goroutines s' !! j = Some g' ∧ Id (g_mon g') = Id (g_mon g) ∧
              (remaining (g_pc g') ≤ remaining (g_pc g))%nat) ∨
     inFlight s' !! Id (g_mon g) = None).
Proof.
  intros Hreach. destruct (reachable_flight_inv _ Hreach) as [Hnd Hin].
  split; [|split].
  - intros id Hid. apply Hin in Hid. unfold running_ids in Hid.
    apply list_elem_of_lookup in Hid as [i Hi].
    rewrite list_lookup_fmap in Hi.
    destruct (goroutines s !! i) as [g|] eqn:Hg; [|done].
    exists i, g. split; [done|]. by injection Hi.
  - intros i g ios Hi.
    destruct (run_goroutine_finishes ios i _ s g Hi eq_refl) as (s' & Hrun & Hfl & Hgs).
    exists s'. split; [done|]. split; [|done]. rewrite Hfl. apply lookup_delete_eq.
  - intros i g s' Hi Hstep. by eapply step_keeps_goroutine.
Qed.

(** ** Identifiers handed out by [AddMonitor] *)

Lemma task_step_added io g s s' og :
  task_step io g s = (s', og) →
  added_ids (trace s') = added_ids (trace s) ∧ issued s' = issued s ∧
  stored_ids s' = stored_ids s ∧ objectIds s' = objectIds s.
Proof.
  unfold task_step, added_ids, stored_ids. intros H.
  destruct (g_pc g) eqn:Hpc; crush_op;
    rewrite ?omap_app, ?app_nil_r; simpl; rewrite ?app_nil_r;
    eauto using replace_id_ids.
Qed.

Lemma AddMonitor_added unix flt mon s :
  added_ids (trace (AddMonitor unix flt mon s).1.1)
    = added_ids (trace s) ++ [(NewObjectId unix (objectIds s)).1] ∧
  issued (AddMonitor unix flt mon s).1.1 = (NewObjectId unix (objectIds s)).1 :: issued s ∧
  objectIds (AddMonitor unix flt mon s).1.1 = (NewObjectId unix (objectIds s)).2.
Proof.
  unfold AddMonitor, added_ids.
  destruct (NewObjectId unix (objectIds s)) as [oid gen].
  destruct (Insert _ _ _) as [c err]. simpl.
  rewrite !omap_app. simpl. by rewrite app_nil_r.
Qed.

(** A transition other than an add announces no new identifier and leaves
    the variables of [bson.NewObjectId] alone; an add announces exactly the
    identifier it drew. *)
Lemma step_added_cases s s' :
  step s s' →
  (added_ids (trace s') = added_ids (trace s) ∧ issued s' = issued s ∧
   objectIds s' = objectIds s) ∨
  (∃ unix, added_ids (trace s') = added_ids (trace s) ++ [(NewObjectId unix (objectIds s)).1] ∧
           issued s' = (NewObjectId unix (objectIds s)).1 :: issued s ∧
           objectIds s' = (NewObjectId unix (objectIds s)).2).
Proof.
  destruct 1 as [now flt s Hp|v flt s s' Hp Hscan|i io s s' Hg|flt s|flt id s s' m err Hget
                |flt mon s|unix flt mon s|flt id s s' err Hdel];
    unfold added_ids.
  - left. crush_op; rewrite ?omap_app, ?app_nil_r; done.
  - left. crush_op; rewrite ?omap_app, ?app_nil_r; simpl; rewrite ?app_nil_r; done.
  - left. unfold goroutine_step in Hg.
    destruct (goroutines s !! i) as [g|]; [|done].
    destruct (task_step io g s) as [s1 og] eqn:Hts.
    apply task_step_added in Hts as (Ha & Hi & _ & Hgen).
    destruct og; simplify_eq/=; done.
  - left. crush_op; rewrite ?omap_app, ?app_nil_r; done.
  - left. crush_op; rewrite ?omap_app, ?app_nil_r; done.
  - left. crush_op; rewrite ?omap_app, ?app_nil_r; simpl; rewrite ?app_nil_r; done.
  - right. exists unix. apply AddMonitor_added.
  - left. crush_op; rewrite ?omap_app, ?app_nil_r; simpl; rewrite ?app_nil_r; done.
Qed.

Lemma added_inv_initial s : initial s → added_inv s.
Proof.
  intros (_ & _ & _ & Htr). exists (objectIdCounter (objectIds s)).
  rewrite Htr. simpl. split; [lia|]. split; [by rewrite Z.add_0_r|]. done.
Qed.

Lemma added_inv_step s s' : step s s' → added_inv s → added_inv s'.
Proof.
  intros Hstep (c0 & Hlen & Hc & Hids). exists c0.
  destruct (step_added_cases _ _ Hstep) as [(Ha & Hi & Hg)|(unix & Ha & Hi & Hg)];
    rewrite Ha, Hi, Hg; [done|].
  destruct (NewObjectId_counter unix (objectIds s)) as [Hoid Hgen].
  rewrite length_app. simpl. split; [lia|]. split.
  - rewrite Hgen, <- Z.add_mod_idemp_l, Hc, Z.add_mod_idemp_l by lia. f_equal. lia.
  - intros k id Hk. apply lookup_app_Some in Hk as [Hk|[Hge Hk]]; [by apply Hids|].
    apply list_lookup_singleton_Some in Hk as [Hk <-].
    rewrite Hoid, <- Z.add_mod_idemp_l, Hc, Z.add_mod_idemp_l by lia. f_equal. lia.
Qed.

Lemma reachable_added_inv s : reachable s → added_inv s.
Proof. apply reachable_ind; eauto using added_inv_initial, added_inv_step. Qed.

(** Fewer than 2^24 + 1 consecutive values of the counter differ in their
    three low bytes. *)
Lemma added_inv_NoDup s :
  added_inv s → Z.of_nat (length (issued s)) ≤ 2 ^ 24 → NoDup (added_ids (trace s)).
Proof.
  intros (c0 & Hlen & _ & Hids) Hbound. apply NoDup_alt. intros i j id Hi Hj.
  pose proof (lookup_lt_Some _ _ _ Hi). pose proof (lookup_lt_Some _ _ _ Hj).
  apply Hids in Hi. apply Hids in Hj. rewrite Hi in Hj.
  change (2 ^ 24) with 16777216 in *. Z.div_mod_to_equations. lia.
Qed.

(** No transition rewrites the identifier of a persisted Monitor: the
    identifiers in the collection stay, gain at the end one that was not
    there, or lose one. *)
Lemma step_stored_ids s s' :
  step s s' →
  stored_ids s' = stored_ids s ∨
  (∃ oid, (oid ∉ stored_ids s) ∧ stored_ids s' = stored_ids s ++ [oid]) ∨
  (∃ oid l1 l2, stored_ids s = l1 ++ oid :: l2 ∧ stored_ids s' = l1 ++ l2).
Proof.
  destruct 1 as [now flt s Hp|v flt s s' Hp Hscan|i io s s' Hg|flt s|flt id s s' m err Hget
                |flt mon s|unix flt mon s|flt id s s' err Hdel];
    unfold stored_ids.
  - left. crush_op; done.
  - left. crush_op; eauto using replace_id_ids.
  - left. unfold goroutine_step in Hg.
    destruct (goroutines s !! i) as [g|]; [|done].
    destruct (task_step io g s) as [s1 og] eqn:Hts.
    apply task_step_added in Hts as (_ & _ & Hst & _).
    destruct og; simplify_eq/=; done.
  - left. crush_op; done.
  - left. crush_op; done.
  - left. crush_op; eauto using replace_id_ids.
  - unfold AddMonitor, Insert.
    destruct (NewObjectId unix (objectIds s)) as [oid gen].
    destruct flt as [e|]; simpl; [by left|].
    destruct (existsb _ _) eqn:Hex; simpl; [by left|].
    right; left. exists oid. split; [by apply existsb_has_id_false in Hex|].
    by rewrite map_app.
  - crush_op; try (by left).
    right; right. edestruct remove_id_ids as (l1 & l2 & H1 & H2); [done|]. eauto.
Qed.


Lemma ex_many_adds_steps n : rtc step ex_start (ex_many_adds n).
Proof.
  induction n as [|n IH]; [apply rtc_refl|].
  eapply rtc_r; [exact IH|]. apply (step_add ex_unix None ex_new_mon).
Qed.

Lemma ex_many_adds_gen n :
  objectIds (ex_many_adds n) =
    {| machineId := machineId ex_gen; processId := processId ex_gen;
       objectIdCounter := (objectIdCounter ex_gen + Z.of_nat n) mod 2 ^ 32 |}.
Proof.
  induction n as [|n IH]; [reflexivity|].
  change (ex_many_adds (S n)) with (AddMonitor ex_unix None ex_new_mon (ex_many_adds n)).1.1.
  destruct (AddMonitor_added ex_unix None ex_new_mon (ex_many_adds n)) as (_ & _ & ->).
  rewrite IH. unfold NewObjectId. cbn [machineId processId objectIdCounter ex_gen snd].
  f_equal. rewrite Z.add_mod_idemp_l by lia. f_equal. lia.
Qed.

Lemma ex_many_adds_ids n :
  added_ids (trace (ex_many_adds n)) = map (λ k, ex_oid (Z.of_nat k)) (seq 0 n).
Proof.
  induction n as [|n IH]; [reflexivity|].
  change (ex_many_adds (S n)) with (AddMonitor ex_unix None ex_new_mon (ex_many_adds n)).1.1.
  destruct (AddMonitor_added ex_unix None ex_new_mon (ex_many_adds n)) as (-> & _ & _).
  by rewrite IH, ex_many_adds_gen, seq_S, map_app.
Qed.

Lemma ex_many_adds_collide n :
  Z.of_nat n = 2 ^ 24 →
  added_ids (trace (ex_many_adds (S n))) !! 0%nat = Some "monitor-0002" ∧
  added_ids (trace (ex_many_adds (S n))) !! n = Some "monitor-0002" ∧
  ¬ NoDup (added_ids (trace (ex_many_adds (S n)))).
Proof.
  intros Hn.
  assert (H0 : added_ids (trace (ex_many_adds (S n))) !! 0%nat = Some "monitor-0002").
  { rewrite ex_many_adds_ids, list_lookup_fmap, lookup_seq_lt by lia. reflexivity. }
  assert (H1 : added_ids (trace (ex_many_adds (S n))) !! n = Some "monitor-0002").
  { rewrite ex_many_adds_ids, list_lookup_fmap, lookup_seq_lt by lia.
    rewrite Nat.add_0_l. cbn [fmap option_fmap option_map]. rewrite Hn. reflexivity. }
  split; [exact H0|]. split; [exact H1|].
  intros Hnd. pose proof (NoDup_lookup _ _ _ _ Hnd H0 H1). lia.
Qed.


(** ** Cold start *)

Lemma wrap64_id z : minDuration ≤ z ≤ maxDuration → wrap64 z = z.
Proof.
  unfold wrap64, minDuration, maxDuration. intros Hz.
  rewrite Z.mod_small; lia.
Qed.

Lemma wrap64_negative z : maxDuration < z ≤ 2 * maxDuration → wrap64 z < 0.
Proof.
  unfold wrap64, maxDuration. intros Hz.
  replace (z + 2 ^ 63) with (z - 2 ^ 63 + 1 * 2 ^ 64) by lia.
  rewrite Z.mod_add by lia. rewrite Z.mod_small; lia.
Qed.

(** The test of line 164 succeeds whenever the exact differences satisfy
    it: neither the saturation of [Sub] nor the wrap-around of
    [Interval*2] changes the verdict. *)
Lemma cold_start_test t mon :
  0 < Interval mon ≤ maxDuration →
  t - LastCheck mon > 2 * Interval mon →
  NextCheck mon - t < - Interval mon →
  (wrap64 (Interval mon * 2) <? Sub t (LastCheck mon))
  && (Sub (NextCheck mon) t <? wrap64 (- Interval mon)) = true.
Proof.
  intros Hi Hage Hwait. apply andb_true_iff. split; apply Z.ltb_lt.
  - destruct (decide (Interval mon * 2 ≤ maxDuration)) as [Hsmall|Hbig].
    + rewrite wrap64_id by (unfold minDuration, maxDuration in *; lia).
      unfold Sub, minDuration, maxDuration in *. repeat case_match; lia.
    + pose proof (wrap64_negative (Interval mon * 2)) as Hneg.
      unfold Sub, minDuration, maxDuration in *. repeat case_match; lia.
  - rewrite wrap64_id by (unfold minDuration, maxDuration in *; lia).
    unfold Sub, minDuration, maxDuration in *. repeat case_match; lia.
Qed.

(** C2. A Monitor with a positive interval (an int64) that is not in flight, whose
    age [t - LastCheck] exceeds twice the interval and whose wait
    [NextCheck - t] is below minus the interval, is not dispatched by the
    scan: goroutines and in-flight map stay as they were. Its NextCheck
    becomes [t + r] for the offset [r] that [rand.Int63n] returns, which lies
    in [0, interval) and can be any value of that range, and the Monitor is
    handed to [UpdateMonitor]. *)
Theorem cold_start_delays_first_check v flt mon s :
  0 < Interval mon ≤ maxDuration →
  inFlight s !! Id mon = None →
  loop_t s - LastCheck mon > 2 * Interval mon →
  NextCheck mon - loop_t s < - Interval mon →
  let r := v mod Interval mon in
  let mon' := set_NextCheck (loop_t s + r) mon in
  let upd := UpdateMonitor flt mon'
               (emit (Log Yellow "monitor" "%s %s: Delaying first check by %s") s) in
  0 ≤ r < Interval mon ∧
  (0 ≤ v < Interval mon → r = v) ∧
  ∃ s', scan_body v flt mon s = Running s' ∧
        s' = match upd.2 with
             | Some e => emit (Log Red "Error updating: %v" (Error e)) upd.1
             | None => upd.1
             end ∧
        goroutines s' = goroutines s ∧
        inFlight s' = inFlight s ∧
        monitorCollection s' = (UpdateId flt (Id mon) mon' (monitorCollection s)).1.
Proof.
  intros Hi Hfl Hage Hwait r mon' upd.
  split; [apply Z.mod_pos_bound; lia|].
  split; [intros Hv; apply Z.mod_small; lia|].
  unfold scan_body. rewrite Hfl, (cold_start_test _ _ Hi Hage Hwait).
  unfold Int63n. destruct (Z.leb_spec (Interval mon) 0) as [?|_]; [lia|].
  fold r. unfold Add. fold mon'. fold upd.
  destruct upd as [s2 err] eqn:Hupd.
  exists (match err with
          | Some e => emit (Log Red "Error updating: %v" (Error e)) s2
          | None => s2
          end).
  split; [by destruct err|]. split; [done|].
  subst upd. unfold UpdateMonitor in Hupd.
  destruct (UpdateId _ _ _ _) as [c e] eqn:Hu. simplify_eq/=.
  by destruct err.
Qed.

(** ** Start-up *)

(** C9. Start-up with no local host in the collection and an empty
    transport registry: after logging that the plugin was not found,
    [Loop] calls the nil constructor and the process panics; no host is
    inserted and the ticker is never reached. *)
Theorem Loop_startup_panics_without_localtransport :
  Loop_startup None None ∅ ex_start =
    Crashed (emit (Log Red "monitor" "localtransport plugin not found") ex_start)
            "invalid memory address or nil pointer dereference".
Proof. reflexivity. Qed.

(** ** Schedule advancement *)

Lemma ex_start_initial : initial ex_start.
Proof. done. Qed.

Lemma ex_steps_to_dispatched : rtc step ex_start ex_dispatched.
Proof.
  eapply rtc_l; [apply (step_tick ex_T1 None); reflexivity|].
  eapply rtc_l; [|apply rtc_refl].
  apply (step_scan 0 None); by vm_compute.
Qed.

Lemma ex_steps_to_ticked_again : rtc step ex_dispatched ex_ticked_again.
Proof.
  eapply rtc_l; [apply (step_goroutine 0 ex_io _ ex_found); by vm_compute|].
  eapply rtc_l; [apply (step_tick ex_T2 None); by vm_compute|]. apply rtc_refl.
Qed.

Lemma ex_steps_to_finished : rtc step ex_ticked_again ex_finished.
Proof.
  eapply rtc_l; [apply (step_scan 0 None _ ex_skipped); by vm_compute|].
  unfold ex_finished. simpl run_goroutine.
  repeat (eapply rtc_l;
          [eapply (step_goroutine 0 ex_io); vm_compute; reflexivity|]).
  vm_compute. apply rtc_refl.
Qed.

(** C3. The execution dispatched by the tick of T0+1.05s is still inside
    [Job.Run] when the tick of T0+1.15s is delivered. Lines 188 and 189
    then read the loop variable [t] as that later tick left it: the record
    persisted by the execution has LastCheck = T0+1.15s and
    NextCheck = T0+2.15s, not T0+1.05s and T0+2.05s. *)
Theorem execution_reads_later_tick :
  initial ex_start ∧
  scan_step 0 None (tick ex_T1 None ex_start) = Running ex_dispatched ∧
  goroutines ex_dispatched = [spawn ex_mon] ∧
  loop_t ex_dispatched = ex_T1 ∧
  rtc step ex_start ex_dispatched ∧
  rtc step ex_dispatched ex_finished ∧
  goroutines ex_finished = [] ∧
  inFlight ex_finished = ∅ ∧
  ∃ m, monitorCollection ex_finished = [m] ∧
       Id m = Id ex_mon ∧
       LastCheck m = ex_T2 ∧
       NextCheck m = ex_T2 + Interval ex_mon ∧
       LastCheck m ≠ ex_T1 ∧
       NextCheck m ≠ ex_T1 + Interval ex_mon.
Proof.
  split; [done|]. split; [by vm_compute|]. split; [by vm_compute|].
  split; [by vm_compute|]. split; [apply ex_steps_to_dispatched|]. split.
  - etrans; [apply ex_steps_to_ticked_again|apply ex_steps_to_finished].
  - split; [by vm_compute|]. split; [by vm_compute|].
    eexists. split; [by vm_compute|]. by vm_compute.
Qed.

Lemma goroutine_step_at i io s g :
  goroutines s !! i = Some g →
  goroutine_step i io s =
    Some (let '(s', og) := task_step io g s in
          match og with
          | Some g' => set_goroutines (<[i := g']> (goroutines s')) s'
          | None => set_goroutines (delete i (goroutines s')) s'
          end).
Proof.
  intros Hi. unfold goroutine_step. rewrite Hi.
  destruct (task_step io g s) as [s' [g'|]]; done.
Qed.

(** X16. When no tick is delivered while the execution runs, it persists
    LastCheck = t and NextCheck = t + Interval for the tick [t] that
    dispatched it (the store keeps them to the millisecond), caches the
    points, and does so whether or not [Job.Run] failed. *)
Lemma uninterrupted_execution_advances i mon ios s :
  goroutines s !! i = Some (spawn mon) →
  let r := io_run (ios 7%nat) in
  let mon' := set_NextCheck (loop_t s + Interval mon)
                (set_LastCheck (loop_t s)
                   (set_LastPoints (rr_points r) (set_MonJob (rr_job r) mon))) in
  ∃ s', run_goroutine 9 i ios s = Some s' ∧
        Broadcast "monchange" (PMonitor mon') ∈ trace s' ∧
        StoreWrite (OpUpdateId (Id mon) mon')
          (UpdateId (io_update (ios 2%nat)) (Id mon) mon' (monitorCollection s)).2
          ∈ trace s' ∧
        monitorCollection s' =
          (UpdateId (io_update (ios 2%nat)) (Id mon) mon' (monitorCollection s)).1 ∧
        WritePoints (rr_points r) (io_write (ios 1%nat)) ∈ trace s'.
Proof.
  intros Hi r mon'.
  assert (Hlt : (i < length (goroutines s))%nat) by (by eapply lookup_lt_Some).
  unfold run_goroutine.
  rewrite (goroutine_step_at _ _ _ _ Hi). unfold task_step at 1. simpl.
  destruct (FindHostId _ _ _) as [found _].
  do 5 (erewrite goroutine_step_at
          by (simpl; apply list_lookup_insert_eq; rewrite ?length_insert; exact Hlt);
        unfold task_step at 1; simpl;
        try match goal with |- context [match rr_err ?x with _ => _ end] =>
              destruct (rr_err x) end; simpl).
  all: erewrite goroutine_step_at
         by (simpl; apply list_lookup_insert_eq; rewrite ?length_insert; exact Hlt).
  all: unfold task_step at 1, UpdateMonitor; simpl; unfold Add; fold r; fold mon'.
  all: destruct (UpdateId _ _ _ _) as [c [ue|]] eqn:Hu; simpl.
  all: erewrite goroutine_step_at
         by (simpl; apply list_lookup_insert_eq; rewrite ?length_insert; exact Hlt).
  all: unfold task_step at 1; simpl.
  all: destruct (io_write (ios 1%nat)) as [we|] eqn:Hw; simpl.
  all: erewrite goroutine_step_at
         by (simpl; apply list_lookup_insert_eq; rewrite ?length_insert; exact Hlt).
  all: unfold task_step at 1; simpl.
  all: eexists; split; [reflexivity|]; simpl.
  all: rewrite ?elem_of_app, ?list_elem_of_singleton; auto 10.
Qed.

(** ** The properties on the worked schedule *)

Lemma ex_ticked_again_reachable : reachable ex_ticked_again.
Proof.
  exists ex_start. split; [apply ex_start_initial|].
  etrans; [apply ex_steps_to_dispatched|apply ex_steps_to_ticked_again].
Qed.

Lemma ex_added_reachable : reachable ex_added.
Proof.
  exists ex_start. split; [apply ex_start_initial|].
  apply rtc_once. apply (step_add ex_unix None ex_new_mon ex_start).
Qed.

(** At the second tick the Monitor is in flight, and the scan passes it by. *)
Lemma at_most_one_execution_per_monitor_witness :
  reachable ex_ticked_again ∧
  NoDup (running_ids ex_ticked_again) ∧
  scan_step 0 None ex_ticked_again = Running (set_pending [] ex_ticked_again).
Proof.
  split; [apply ex_ticked_again_reachable|].
  destruct (at_most_one_execution_per_monitor ex_ticked_again ex_ticked_again_reachable)
    as (Hnd & _ & Hskip).
  split; [exact Hnd|].
  apply (Hskip 0 None ex_mon []); [reflexivity|].
  exists true. vm_compute. reflexivity.
Defined.

(** A never-checked Monitor met by the tick of T0+1.05s, after [ex_mon] has
    been dispatched by the same scan. *)
Lemma cold_start_delays_first_check_witness :
  ∃ s', scan_step 12345 None ex_cold = Running s' ∧
        goroutines s' = [spawn ex_mon] ∧
        monitorCollection s' = [ex_mon; bson_monitor (set_NextCheck (ex_T1 + 12345) ex_new_mon)].
Proof.
  destruct (cold_start_delays_first_check 12345 None ex_new_mon (set_pending [] ex_cold))
    as (_ & _ & s' & Hscan & _ & Hg & _ & Hc).
  - vm_compute. split; [reflexivity|discriminate].
  - vm_compute. reflexivity.
  - vm_compute. reflexivity.
  - vm_compute. reflexivity.
  - exists s'. split; [exact Hscan|]. split; [exact Hg|exact Hc].
Defined.

(** The goroutine of the example, about to call [Job.Run], runs to its end. *)
Lemma in_flight_mark_always_cleared_witness :
  ∃ s', run_goroutine 8 0 (λ _, ex_io) ex_ticked_again = Some s' ∧
        inFlight s' !! Id ex_mon = None.
Proof.
  destruct (in_flight_mark_always_cleared ex_ticked_again ex_ticked_again_reachable)
    as (_ & Hrun & _).
  destruct (Hrun 0%nat (default (spawn ex_mon) (goroutines ex_ticked_again !! 0%nat))
              (λ _, ex_io)) as (s' & Hs' & Hfl & _).
  - vm_compute. reflexivity.
  - exists s'. split; [exact Hs'|exact Hfl].
Defined.

Lemma DeleteMonitor_invalid_id_witness :
  DeleteMonitor None "monitor-0001" ex_start = Running (ex_start, Some ErrorInvalidId).
Proof.
  apply DeleteMonitor_invalid_id.
  intros [Hlen _]. vm_compute in Hlen. discriminate Hlen.
Defined.



Lemma tick_fetch_failure_witness :
  goroutines (tick ex_T1 (Some (ErrOther "no reachable servers")) ex_start) = [] ∧
  pending (tick ex_T1 (Some (ErrOther "no reachable servers")) ex_start) = [].
Proof.
  destruct (tick_fetch_failure ex_T1 (ErrOther "no reachable servers") ex_start)
    as (_ & _ & _ & Hg & Hp & _).
  - reflexivity.
  - split; [exact Hg|exact Hp].
Defined.

(** * Further properties of the scheduler *)

(** ** Identifiers in text form *)

Lemma DecodeString_length s d :
  DecodeString s = Some d → String.length s = (2 * String.length d)%nat.
Proof.
  revert d. induction s as [| a | a b s IH] using string_pair_ind; intros d; simpl.
  - by intros [= <-].
  - discriminate.
  - destruct (fromHexChar a); [|discriminate].
    destruct (fromHexChar b); [|discriminate].
    destruct (DecodeString s) as [d'|]; [|discriminate].
    intros [= <-]. simpl. rewrite (IH d' eq_refl). lia.
Qed.

(** What [bson.IsObjectIdHex] lets through, [bson.ObjectIdHex] converts. *)
Lemma IsObjectIdHex_ObjectIdHex s :
  IsObjectIdHex s = true → ∃ oid, ObjectIdHex s = Some oid ∧ String.length oid = 12%nat.
Proof.
  unfold IsObjectIdHex, ObjectIdHex.
  rewrite andb_true_iff, Nat.eqb_eq, bool_decide_eq_true. intros [Hlen [d Hd]].
  rewrite Hd. apply DecodeString_length in Hd.
  assert (String.length d = 12%nat) as Hd12 by lia.
  rewrite Hd12. simpl. eauto.
Qed.

Lemma find_has_id_None id c : id ∉ map Id c → List.find (has_id id) c = None.
Proof.
  induction c as [|m c IH]; [done|]. simpl. intros Hnot.
  apply not_elem_of_cons in Hnot as [Hne Hnot].
  destruct (has_id id m) eqn:Hm; [|by apply IH].
  apply has_id_true in Hm. congruence.
Qed.

Lemma find_has_id_unique m c :
  m ∈ c → NoDup (map Id c) → List.find (has_id (Id m)) c = Some m.
Proof.
  induction c as [|x c IH]; intros Hin Hnd; [by apply elem_of_nil in Hin|].
  simpl in *. apply NoDup_cons in Hnd as [Hx Hnd].
  apply elem_of_cons in Hin as [->|Hin].
  - by rewrite (proj2 (has_id_true (Id x) x) eq_refl).
  - destruct (has_id (Id m) x) eqn:Hm; [|by apply IH].
    apply has_id_true in Hm. exfalso. apply Hx. rewrite Hm.
    by apply (list_elem_of_fmap_2 Id).
Qed.

Lemma find_has_id_app id c doc :
  id ∉ map Id c → Id doc = id → List.find (has_id id) (c ++ [doc]) = Some doc.
Proof.
  intros Hnot Hdoc. induction c as [|m c IH]; simpl.
  - by rewrite (proj2 (has_id_true id doc) Hdoc).
  - simpl in Hnot. apply not_elem_of_cons in Hnot as [Hne Hnot].
    destruct (has_id id m) eqn:Hm; [|by apply IH].
    apply has_id_true in Hm. congruence.
Qed.

Lemma replace_id_None id doc c : id ∉ map Id c → replace_id id doc c = None.
Proof.
  induction c as [|m c IH]; [done|]. simpl. intros Hnot.
  apply not_elem_of_cons in Hnot as [Hne Hnot].
  destruct (has_id id m) eqn:Hm.
  - apply has_id_true in Hm. congruence.
  - by rewrite IH.
Qed.

Lemma remove_id_None id c : id ∉ map Id c → remove_id id c = None.
Proof.
  induction c as [|m c IH]; [done|]. simpl. intros Hnot.
  apply not_elem_of_cons in Hnot as [Hne Hnot].
  destruct (has_id id m) eqn:Hm.
  - apply has_id_true in Hm. congruence.
  - by rewrite IH.
Qed.

Lemma replace_id_find_other id id' doc c c' :
  replace_id id doc c = Some c' → Id doc = id → id' ≠ id →
  List.find (has_id id') c' = List.find (has_id id') c.
Proof.
  intros Hrep Hdoc Hne. revert c' Hrep.
  induction c as [|m c IH]; intros c'; simpl; [discriminate|].
  destruct (has_id id m) eqn:Hm.
  - intros [= <-]. simpl. apply has_id_true in Hm.
    assert (has_id id' doc = false) as ->.
    { apply not_true_is_false. rewrite has_id_true. congruence. }
    assert (has_id id' m = false) as ->; [|done].
    apply not_true_is_false. rewrite has_id_true. congruence.
  - destruct (replace_id id doc c) as [r|]; [|discriminate].
    intros [= <-]. simpl. destruct (has_id id' m); [done|]. by apply IH.
Qed.

Lemma remove_id_sub id c c' m :
  remove_id id c = Some c' → m ∈ c → Id m ≠ id → m ∈ c'.
Proof.
  revert c'. induction c as [|x c IH]; intros c'; simpl; [discriminate|].
  destruct (has_id id x) eqn:Hx.
  - intros [= <-] Hin Hne. apply elem_of_cons in Hin as [->|Hin]; [|done].
    apply has_id_true in Hx. congruence.
  - destruct (remove_id id c) as [r|]; [|discriminate].
    intros [= <-] Hin Hne. apply elem_of_cons in Hin as [->|Hin].
    + left.
    + right. by apply IH.
Qed.

Lemma remove_id_gone id c c' :
  remove_id id c = Some c' → NoDup (map Id c) → id ∉ map Id c'.
Proof.
  revert c'. induction c as [|x c IH]; intros c'; simpl; [discriminate|].
  intros Hrem [Hx Hnd]%NoDup_cons.
  destruct (has_id id x) eqn:Hid.
  - injection Hrem as <-. apply has_id_true in Hid. by rewrite <- Hid.
  - destruct (remove_id id c) as [r|]; [|discriminate].
    injection Hrem as <-. simpl. apply not_elem_of_cons. split; [|by apply IH].
    intros ->. unfold has_id in Hid. by rewrite String.eqb_refl in Hid.
Qed.

(** ** Reading and deleting by identifier *)

(** X1. [GetMonitor] called with a string that is not a well-formed
    identifier returns [ErrorInvalidId] with the zero Monitor, without
    asking the collection and without logging. *)
Theorem GetMonitor_invalid_id flt id s :
  ¬ well_formed_hex_id id →
  GetMonitor flt id s = Running (s, zeroMonitor, Some ErrorInvalidId).
Proof.
  intros Hbad. unfold GetMonitor.
  destruct (IsObjectIdHex id) eqn:Hok; [|done].
  by apply IsObjectIdHex_spec in Hok.
Qed.

(** X2. The guard on [bson.IsObjectIdHex] keeps [bson.ObjectIdHex] from
    panicking: [GetMonitor] and [DeleteMonitor] return normally on every
    string, whatever the collection answers. *)
Theorem GetMonitor_DeleteMonitor_never_panic flt id s :
  (∃ r, GetMonitor flt id s = Running r) ∧ (∃ r, DeleteMonitor flt id s = Running r).
Proof.
  unfold GetMonitor, DeleteMonitor.
  destruct (IsObjectIdHex id) eqn:Hok; simpl; [|eauto].
  destruct (IsObjectIdHex_ObjectIdHex _ Hok) as (oid & -> & _). split.
  - destruct (FindId _ _ _) as [found [e|]]; eauto.
  - destruct (RemoveId _ _ _) as [c err]. eauto.
Qed.

(** X3. [GetMonitor] on the text form of an identifier that no stored
    Monitor has returns [mgo.ErrNotFound] with the zero Monitor; the
    failure is logged and nothing else changes. *)
Theorem GetMonitor_not_found oid s :
  String.length oid = 12%nat →
  oid ∉ stored_ids s →
  GetMonitor None (Hex oid) s =
    Running (emit (Log Red "monitor" "Error getting monitors from Mongo: %s") s,
             zeroMonitor, Some ErrNotFound).
Proof.
  intros Hlen Hnot. unfold GetMonitor.
  rewrite (IsObjectIdHex_Hex _ Hlen), (ObjectIdHex_Hex _ Hlen). simpl.
  by rewrite (find_has_id_None _ _ Hnot).
Qed.

(** X4. In a collection with unique identifiers, [GetMonitor] on the text
    form of a stored Monitor's identifier returns that Monitor, field for
    field, and changes nothing. *)
Theorem GetMonitor_found m s :
  m ∈ monitorCollection s →
  NoDup (stored_ids s) →
  String.length (Id m) = 12%nat →
  GetMonitor None (Hex (Id m)) s = Running (s, m, None).
Proof.
  intros Hin Hnd Hlen. unfold GetMonitor.
  rewrite (IsObjectIdHex_Hex _ Hlen), (ObjectIdHex_Hex _ Hlen). simpl.
  by rewrite (find_has_id_unique _ _ Hin Hnd).
Qed.


(** X6. After a [DeleteMonitor] that returned no error, in a collection
    with unique identifiers, the Monitor is gone: [GetMonitor] on the same
    identifier returns [mgo.ErrNotFound]; every Monitor with another
    identifier is still stored. *)
Theorem DeleteMonitor_then_GetMonitor oid flt s s' :
  String.length oid = 12%nat →
  NoDup (stored_ids s) →
  DeleteMonitor flt (Hex oid) s = Running (s', None) →
  GetMonitor None (Hex oid) s' =
    Running (emit (Log Red "monitor" "Error getting monitors from Mongo: %s") s',
             zeroMonitor, Some ErrNotFound) ∧
  ∀ m, m ∈ monitorCollection s → Id m ≠ oid → m ∈ monitorCollection s'.
Proof.
  intros Hlen Hnd Hdel. unfold DeleteMonitor in Hdel.
  rewrite (IsObjectIdHex_Hex _ Hlen), (ObjectIdHex_Hex _ Hlen) in Hdel. simpl in Hdel.
  unfold RemoveId in Hdel. destruct flt as [e|]; [by simplify_eq/=|].
  destruct (remove_id oid (monitorCollection s)) as [c'|] eqn:Hrem; simplify_eq/=.
  split.
  - unfold GetMonitor.
    rewrite (IsObjectIdHex_Hex _ Hlen), (ObjectIdHex_Hex _ Hlen). simpl.
    rewrite find_has_id_None; [done|]. by eapply remove_id_gone.
  - intros m Hin Hne. by eapply remove_id_sub.
Qed.

(** X7. On a well-formed identifier [DeleteMonitor] first broadcasts
    "mondelete" with the string as it was passed and only then sends the
    removal; when no stored Monitor has the identifier the removal fails
    with [mgo.ErrNotFound] and the collection is unchanged, yet the
    broadcast has been made. *)
Theorem DeleteMonitor_broadcasts_before_remove id s :
  well_formed_hex_id id →
  ∃ oid, ObjectIdHex id = Some oid ∧
    (∀ flt, ∃ s' err,
       DeleteMonitor flt id s = Running (s', err) ∧
       trace s' = trace s ++ [Broadcast "mondelete" (PString id);
                              StoreWrite (OpRemoveId oid) err]) ∧
    (oid ∉ stored_ids s →
     ∃ s', DeleteMonitor None id s = Running (s', Some ErrNotFound) ∧
           monitorCollection s' = monitorCollection s).
Proof.
  intros Hwf. apply IsObjectIdHex_spec in Hwf.
  destruct (IsObjectIdHex_ObjectIdHex _ Hwf) as (oid & Hoid & _).
  exists oid. split; [done|]. unfold DeleteMonitor. rewrite Hwf, Hoid. simpl. split.
  - intros flt. destruct (RemoveId _ _ _) as [c err]. do 2 eexists.
    split; [done|]. simpl. by rewrite <- app_assoc.
  - intros Hnot. unfold RemoveId. rewrite (remove_id_None _ _ Hnot). eauto.
Qed.

(** ** The collection under the scheduler's transitions *)

Lemma NoDup_app_remove {A} (l1 l2 : list A) x : NoDup (l1 ++ x :: l2) → NoDup (l1 ++ l2).
Proof.
  rewrite !NoDup_app, NoDup_cons. intros (H1 & H12 & _ & H2).
  repeat split; [done| |done]. intros y Hy Hy2. apply (H12 y Hy). by right.
Qed.

Lemma step_keeps_ids_unique s s' :
  step s s' → NoDup (stored_ids s) → NoDup (stored_ids s').
Proof.
  intros Hstep Hnd.
  assert (Hcases : stored_ids s' = stored_ids s ∨
            (∃ oid, (oid ∉ stored_ids s) ∧ stored_ids s' = stored_ids s ++ [oid]) ∨
            (∃ oid l1 l2, stored_ids s = l1 ++ oid :: l2 ∧ stored_ids s' = l1 ++ l2)).
  { destruct Hstep as [now flt s Hp|v flt s s' Hp Hscan|i io s s' Hg|flt s
                      |flt id s s' m err Hget|flt mon s|unix flt mon s
                      |flt id s s' err Hdel]; unfold stored_ids.
    - left. crush_op; done.
    - left. crush_op; eauto using replace_id_ids.
    - left. unfold goroutine_step in Hg.
      destruct (goroutines s !! i) as [g|]; [|done].
      destruct (task_step io g s) as [s1 og] eqn:Hts.
      apply task_step_added in Hts as (_ & _ & Hst & _).
      destruct og; simplify_eq/=; done.
    - left. crush_op; done.
    - left. crush_op; done.
    - left. crush_op; eauto using replace_id_ids.
    - unfold AddMonitor, Insert.
      destruct (NewObjectId unix (objectIds s)) as [oid gen].
      destruct flt as [e|]; simpl; [by left|].
      destruct (existsb _ _) eqn:Hex; simpl; [by left|].
      right; left. exists oid. split; [by apply existsb_has_id_false in Hex|].
      by rewrite map_app.
    - crush_op; try (by left).
      right; right. edestruct remove_id_ids as (l1 & l2 & H1 & H2); [done|]. eauto. }
  destruct Hcases as [->|[(oid & Hnot & ->)|(oid & l1 & l2 & H1 & ->)]].
  - done.
  - apply NoDup_app. repeat split; [done| |apply NoDup_singleton].
    intros x Hx ->%list_elem_of_singleton. done.
  - rewrite H1 in Hnd. by eapply NoDup_app_remove.
Qed.

(** X8. No sequence of scheduler transitions (ticks, scans, executions,
    administrative adds, updates and deletes) makes two stored Monitors
    share an identifier: a collection whose identifiers are unique keeps
    them unique. *)
Theorem stored_identifiers_stay_unique s s' :
  NoDup (stored_ids s) → rtc step s s' → NoDup (stored_ids s').
Proof.
  intros Hnd Hrtc. induction Hrtc as [|x y z Hxy Hyz IH]; [done|].
  apply IH. by eapply step_keeps_ids_unique.
Qed.

(** X9. [UpdateMonitor] never creates a record: for a Monitor whose
    identifier is not stored the write fails with [mgo.ErrNotFound] and
    the collection stays as it was. So an execution that reaches line 191
    after its Monitor was deleted does not bring the Monitor back,
    whatever the store answers. *)
Theorem UpdateMonitor_is_not_an_upsert mon s :
  Id mon ∉ stored_ids s →
  (UpdateMonitor None mon s).2 = Some ErrNotFound ∧
  (∀ flt, monitorCollection (UpdateMonitor flt mon s).1 = monitorCollection s) ∧
  (∀ i g io s', goroutines s !! i = Some g → g_pc g = L191 → g_mon g = mon →
                goroutine_step i io s = Some s' →
                monitorCollection s' = monitorCollection s).
Proof.
  intros Hnot.
  assert (Hcol : ∀ flt, monitorCollection (UpdateMonitor flt mon s).1 = monitorCollection s).
  { intros [e|]; unfold UpdateMonitor, UpdateId; simpl; [done|].
    by rewrite (replace_id_None _ _ _ Hnot). }
  split; [|split; [done|]].
  - unfold UpdateMonitor, UpdateId. simpl. by rewrite (replace_id_None _ _ _ Hnot).
  - intros i g io s' Hi Hpc Hmon Hstep.
    rewrite (goroutine_step_at _ _ _ _ Hi) in Hstep. unfold task_step in Hstep.
    rewrite Hpc, Hmon in Hstep. specialize (Hcol (io_update io)).
    destruct (UpdateMonitor (io_update io) mon s) as [s1 [e|]]; simplify_eq/=; done.
Qed.

(** X10. [UpdateMonitor] touches one record only: looking up any other
    identifier gives the same result before and after, whether the write
    succeeds or fails. *)
Theorem UpdateMonitor_leaves_other_records flt mon s id' :
  id' ≠ Id mon →
  List.find (has_id id') (monitorCollection (UpdateMonitor flt mon s).1) =
  List.find (has_id id') (monitorCollection s).
Proof.
  intros Hne. unfold UpdateMonitor, UpdateId. destruct flt as [e|]; simpl; [done|].
  destruct (replace_id _ _ _) as [c'|] eqn:Hrep; simpl; [|done].
  by eapply replace_id_find_other.
Qed.

(** ** The decision of the scan *)

Lemma Sub_exact t u : minDuration ≤ t - u ≤ maxDuration → Sub t u = t - u.
Proof. unfold Sub, minDuration, maxDuration. intros H. repeat case_match; lia. Qed.

Lemma Sub_lower t u d : minDuration < d → d ≤ t - u → d ≤ maxDuration → d ≤ Sub t u.
Proof. unfold Sub, minDuration, maxDuration. intros. repeat case_match; lia. Qed.

Lemma Sub_upper t u d : t - u ≤ d → minDuration ≤ d → Sub t u ≤ d.
Proof. unfold Sub, minDuration, maxDuration. intros. repeat case_match; lia. Qed.

Lemma Sub_negative t u : t - u < 0 ↔ Sub t u < 0.
Proof. unfold Sub, minDuration, maxDuration. repeat case_match; lia. Qed.

(** With a positive interval whose double fits a [Duration], the test of
    line 164 decides exactly [cold]. *)
Lemma cold_test_spec t mon :
  0 < Interval mon → 2 * Interval mon ≤ maxDuration →
  (wrap64 (Interval mon * 2) <? Sub t (LastCheck mon))
  && (Sub (NextCheck mon) t <? wrap64 (- Interval mon)) = true ↔ cold t mon.
Proof.
  intros Hpos Hfit. unfold cold. split.
  - intros [Hage Hwait]%andb_true_iff. apply Z.ltb_lt in Hage, Hwait.
    rewrite wrap64_id in Hage, Hwait by (unfold minDuration, maxDuration in *; lia).
    unfold Sub, minDuration, maxDuration in *. repeat case_match; lia.
  - intros [Hage Hwait]. apply cold_start_test; [unfold maxDuration in *; lia|done..].
Qed.

(** X11. A Monitor that is not yet due ([NextCheck] not before the tick) and
    has a positive interval is passed by: the scan leaves the whole state
    as it is, in flight or not. *)
Theorem scan_body_not_due v flt mon s :
  0 < Interval mon ≤ maxDuration →
  loop_t s ≤ NextCheck mon →
  scan_body v flt mon s = Running s.
Proof.
  intros Hi Hnext. unfold scan_body.
  destruct (inFlight s !! Id mon); [done|].
  assert (Hw : 0 ≤ Sub (NextCheck mon) (loop_t s)).
  { apply Sub_lower; unfold minDuration, maxDuration; lia. }
  rewrite (wrap64_id (- Interval mon)) by (unfold minDuration, maxDuration in *; lia).
  destruct (Z.ltb_spec (Sub (NextCheck mon) (loop_t s)) (- Interval mon)); [lia|].
  rewrite andb_false_r.
  destruct (Z.ltb_spec (Sub (NextCheck mon) (loop_t s)) 0); [lia|done].
Qed.

(** X12. A Monitor that is due and not in flight is dispatched: its
    identifier is marked, one goroutine is started on a copy of the
    snapshot's record, and nothing is written, broadcast or logged by the
    scan itself. *)
Theorem scan_body_due_dispatches v flt mon s :
  0 < Interval mon → 2 * Interval mon ≤ maxDuration →
  inFlight s !! Id mon = None →
  due (loop_t s) mon →
  scan_body v flt mon s =
    Running (set_goroutines (goroutines s ++ [spawn mon])
               (set_inFlight (<[Id mon := true]> (inFlight s)) s)).
Proof.
  intros Hpos Hfit Hfl [Hnext Hwarm]. unfold scan_body. rewrite Hfl.
  destruct (_ && _) eqn:Htest.
  - by apply cold_test_spec in Htest.
  - assert (Sub (NextCheck mon) (loop_t s) < 0) as Hw by (apply Sub_negative; lia).
    by destruct (Z.ltb_spec (Sub (NextCheck mon) (loop_t s)) 0); [|lia].
Qed.

(** X13. A Monitor with interval zero (or negative) that passes the test of
    line 164 stops the scheduler: [rand.Int63n] panics on the interval,
    before anything is written. With interval zero this is every Monitor
    not in flight with both timestamps before the tick. *)
Theorem scan_body_panics_on_nonpositive_interval v flt mon s :
  - 2 ^ 62 ≤ Interval mon ≤ 0 →
  inFlight s !! Id mon = None →
  cold (loop_t s) mon →
  scan_body v flt mon s = Crashed s "invalid argument to Int63n".
Proof.
  intros Hi Hfl [Hage Hwait]. unfold scan_body. rewrite Hfl.
  rewrite !wrap64_id by (unfold minDuration, maxDuration in *; lia).
  assert (Interval mon * 2 < Sub (loop_t s) (LastCheck mon)) as H1.
  { unfold Sub, minDuration, maxDuration. repeat case_match; lia. }
  assert (Sub (NextCheck mon) (loop_t s) < - Interval mon) as H2.
  { unfold Sub, minDuration, maxDuration. repeat case_match; lia. }
  apply Z.ltb_lt in H1, H2. rewrite H1, H2. simpl.
  unfold Int63n. by destruct (Z.leb_spec (Interval mon) 0); [|lia].
Qed.

Lemma scan_body_positive_interval v flt mon s :
  0 < Interval mon → ∃ s', scan_body v flt mon s = Running s'.
Proof.
  intros Hpos. unfold scan_body, Int63n.
  destruct (inFlight s !! Id mon); [eauto|].
  destruct (_ && _).
  - destruct (Z.leb_spec (Interval mon) 0); [lia|].
    destruct (UpdateMonitor _ _ _) as [s2 [e|]]; eauto.
  - destruct (_ <? 0); eauto.
Qed.

Lemma scan_step_head v flt mon rest s :
  pending s = mon :: rest →
  0 < Interval mon →
  ∃ s', scan_step v flt s = Running s' ∧
        pending s' = rest ∧
        loop_t s' = loop_t s ∧
        (∀ id, is_Some (inFlight s !! id) → is_Some (inFlight s' !! id)) ∧
        (2 * Interval mon ≤ maxDuration → due (loop_t s) mon →
         is_Some (inFlight s' !! Id mon)).
Proof.
  intros Hp Hpos. unfold scan_step. rewrite Hp.
  destruct (inFlight s !! Id mon) as [b|] eqn:Hfl.
  - exists (set_pending rest s). unfold scan_body. simpl. rewrite Hfl.
    repeat split; eauto.
  - destruct (scan_body_positive_interval v flt mon (set_pending rest s) Hpos)
      as [s' Hs'].
    exists s'. split; [done|].
    assert (Hframe : pending s' = rest ∧ loop_t s' = loop_t s ∧
              ∀ id, is_Some (inFlight s !! id) → is_Some (inFlight s' !! id)).
    { unfold scan_body in Hs'. simpl in Hs'. rewrite Hfl in Hs'.
      crush_op; repeat split; try done.
      intros id Hid. rewrite lookup_insert_is_Some.
      destruct (decide (Id mon = id)); auto. }
    destruct Hframe as (Hp' & Ht' & Hsub). repeat split; try done.
    intros Hfit [Hnext Hwarm].
    unfold scan_body in Hs'. simpl in Hs'. rewrite Hfl in Hs'.
    destruct (_ && _) eqn:Htest in Hs'; [by apply cold_test_spec in Htest|].
    assert (Sub (NextCheck mon) (loop_t s) < 0) as Hw by (apply Sub_negative; lia).
    destruct (Z.ltb_spec (Sub (NextCheck mon) (loop_t s)) 0); [|lia].
    injection Hs' as <-. simpl. rewrite lookup_insert_eq. eauto.
Qed.

(** X14. A scan over a snapshot whose Monitors all have a positive interval
    (with a double that fits a [Duration]) always reaches the end of the
    snapshot, whatever the draws and the store's answers; no mark is
    removed by it, and afterwards every Monitor of the snapshot that was
    due at the tick is marked in flight. *)
Theorem scan_all_overlooks_no_due_monitor vs flts s :
  Forall (λ mon, 0 < Interval mon ∧ 2 * Interval mon ≤ maxDuration) (pending s) →
  ∃ s', scan_all (length (pending s)) vs flts s = Running s' ∧
        pending s' = [] ∧
        loop_t s' = loop_t s ∧
        (∀ id, is_Some (inFlight s !! id) → is_Some (inFlight s' !! id)) ∧
        (∀ mon, mon ∈ pending s → due (loop_t s) mon →
                is_Some (inFlight s' !! Id mon)).
Proof.
  remember (pending s) as l eqn:Hl. revert s Hl.
  induction l as [|mon rest IH]; intros s Hl Hall.
  - exists s. simpl. repeat split; try done.
    intros mon Hin. by apply elem_of_nil in Hin.
  - apply Forall_cons in Hall as [[Hpos Hfit] Hall]. simpl.
    destruct (scan_step_head (vs (length rest)) (flts (length rest)) mon rest s
                (eq_sym Hl) Hpos) as (s1 & -> & Hp1 & Ht1 & Hsub1 & Hdue1).
    destruct (IH s1 (eq_sym Hp1) Hall) as (s' & Hrun & Hp' & Ht' & Hsub' & Hdue').
    exists s'. split; [done|]. split; [done|]. split; [congruence|].
    split; [auto|].
    intros m [->|Hin]%elem_of_cons Hd.
    + auto.
    + apply Hdue'; [done|]. by rewrite Ht1.
Qed.

(** ** The further properties on the worked schedule *)

Lemma GetMonitor_invalid_id_witness :
  GetMonitor None "monitor-0001" ex_start = Running (ex_start, zeroMonitor, Some ErrorInvalidId).
Proof.
  apply GetMonitor_invalid_id.
  intros [Hlen _]. vm_compute in Hlen. discriminate Hlen.
Defined.

Lemma GetMonitor_not_found_witness :
  GetMonitor None (Hex "monitor-0002") ex_start =
    Running (emit (Log Red "monitor" "Error getting monitors from Mongo: %s") ex_start,
             zeroMonitor, Some ErrNotFound).
Proof.
  apply GetMonitor_not_found; [reflexivity|].
  vm_compute. intros H. apply elem_of_cons in H as [H|H]; [discriminate H|].
  by apply elem_of_nil in H.
Defined.

Lemma GetMonitor_found_witness :
  GetMonitor None (Hex (Id ex_new_mon)) ex_added = Running (ex_added, ex_new_mon, None).
Proof.
  apply GetMonitor_found.
  - vm_compute. right. left.
  - vm_compute. apply NoDup_cons. split; [|apply NoDup_singleton].
    intros H%list_elem_of_singleton. discriminate H.
  - reflexivity.
Defined.


Lemma DeleteMonitor_then_GetMonitor_witness :
  ∃ s', DeleteMonitor None (Hex "monitor-0001") ex_added = Running (s', None) ∧
        ex_new_mon ∈ monitorCollection s'.
Proof.
  eexists. split; [vm_compute; reflexivity|].
  eapply (DeleteMonitor_then_GetMonitor "monitor-0001" None ex_added).
  - reflexivity.
  - vm_compute. apply NoDup_cons. split; [|apply NoDup_singleton].
    intros H%list_elem_of_singleton. discriminate H.
  - vm_compute. reflexivity.
  - vm_compute. right. left.
  - vm_compute. discriminate.
Defined.

Lemma DeleteMonitor_broadcasts_before_remove_witness :
  ∃ oid, ObjectIdHex "6D6F6E69746F722D30303039" = Some oid ∧
         ∃ s', DeleteMonitor None "6D6F6E69746F722D30303039" ex_start
               = Running (s', Some ErrNotFound).
Proof.
  destruct (DeleteMonitor_broadcasts_before_remove "6D6F6E69746F722D30303039" ex_start)
    as (oid & Hoid & _ & Habsent).
  - apply IsObjectIdHex_spec. vm_compute. reflexivity.
  - exists oid. split; [exact Hoid|].
    destruct Habsent as (s' & Hdel & _).
    + vm_compute in Hoid. injection Hoid as <-. vm_compute.
      intros H. apply elem_of_cons in H as [H|H]; [discriminate H|].
      by apply elem_of_nil in H.
    + exists s'. exact Hdel.
Defined.

Lemma stored_identifiers_stay_unique_witness : NoDup (stored_ids ex_finished).
Proof.
  apply (stored_identifiers_stay_unique ex_start ex_finished).
  - vm_compute. apply NoDup_singleton.
  - etrans; [apply ex_steps_to_dispatched|].
    etrans; [apply ex_steps_to_ticked_again|apply ex_steps_to_finished].
Defined.

Lemma UpdateMonitor_is_not_an_upsert_witness :
  (UpdateMonitor None ex_new_mon ex_start).2 = Some ErrNotFound.
Proof.
  apply UpdateMonitor_is_not_an_upsert.
  vm_compute. intros H. apply elem_of_cons in H as [H|H]; [discriminate H|].
  by apply elem_of_nil in H.
Defined.

Lemma UpdateMonitor_leaves_other_records_witness :
  List.find (has_id "monitor-0002")
    (monitorCollection (UpdateMonitor None ex_edited_mon ex_added).1) = Some ex_new_mon.
Proof.
  rewrite (UpdateMonitor_leaves_other_records None ex_edited_mon ex_added "monitor-0002").
  - vm_compute. reflexivity.
  - vm_compute. discriminate.
Defined.

Lemma scan_body_not_due_witness :
  scan_body 0 None ex_mon (tick ex_T0 None ex_start) = Running (tick ex_T0 None ex_start).
Proof.
  apply scan_body_not_due.
  - vm_compute. split; [reflexivity|discriminate].
  - vm_compute. discriminate.
Defined.

Lemma scan_body_due_dispatches_witness :
  scan_body 0 None ex_mon (set_pending [] ex_ticked) = Running ex_dispatched.
Proof.
  rewrite (scan_body_due_dispatches 0 None ex_mon (set_pending [] ex_ticked)).
  - vm_compute. reflexivity.
  - vm_compute. reflexivity.
  - vm_compute. discriminate.
  - vm_compute. reflexivity.
  - split; [vm_compute; reflexivity|].
    intros [Hage _]. vm_compute in Hage. discriminate Hage.
Defined.

Lemma scan_body_panics_on_nonpositive_interval_witness :
  scan_body 0 None ex_zero_mon ex_ticked = Crashed ex_ticked "invalid argument to Int63n".
Proof.
  apply scan_body_panics_on_nonpositive_interval.
  - vm_compute. split; discriminate.
  - vm_compute. reflexivity.
  - split; vm_compute; reflexivity.
Defined.

Lemma scan_all_overlooks_no_due_monitor_witness :
  ∃ s', scan_all 2 (λ _, 12345) (λ _, None) (tick ex_T1 None ex_added) = Running s' ∧
        pending s' = [] ∧
        is_Some (inFlight s' !! Id ex_mon).
Proof.
  destruct (scan_all_overlooks_no_due_monitor (λ _, 12345) (λ _, None)
              (tick ex_T1 None ex_added)) as (s' & Hrun & Hp & _ & _ & Hdue).
  - replace (pending (tick ex_T1 None ex_added)) with [ex_mon; ex_new_mon]
      by (vm_compute; reflexivity).
    apply Forall_cons. split; [vm_compute; split; [reflexivity|discriminate]|].
    apply Forall_cons. split; [vm_compute; split; [reflexivity|discriminate]|].
    apply Forall_nil. exact I.
  - exists s'. split; [exact Hrun|]. split; [exact Hp|].
    apply Hdue.
    + vm_compute. left.
    + split; [vm_compute; reflexivity|].
      intros [Hage _]. vm_compute in Hage. discriminate Hage.
Defined.

Lemma uninterrupted_execution_advances_witness :
  ∃ s', run_goroutine 9 0 (λ _, ex_io) ex_dispatched = Some s' ∧
        monitorCollection s' =
          [set_NextCheck (ex_T1 + second)
             (set_LastCheck ex_T1
                (set_LastPoints [ex_point]
                   (set_MonJob {| AgentId := "e"; Agent := 3071 |} ex_mon)))].
Proof.
  destruct (uninterrupted_execution_advances 0 ex_mon (λ _, ex_io) ex_dispatched)
    as (s' & Hrun & _ & _ & Hc & _).
  - vm_compute. reflexivity.
  - exists s'. split; [exact Hrun|]. rewrite Hc. vm_compute. reflexivity.
Defined.

(** * Memory statistics *)

(** ** The string functions *)

Lemma append_cons x a b : (String x a ++ b)%string = String x (a ++ b)%string.
Proof. reflexivity. Qed.

Lemma append_nil b : (EmptyString ++ b)%string = b.
Proof. reflexivity. Qed.

Lemma IndexByte_app c k r :
  IndexByte c k = None → IndexByte c (k ++ String c r)%string = Some (String.length k).
Proof.
  induction k as [|a k IH]; simpl.
  - by rewrite Ascii.eqb_refl.
  - destruct (Ascii.eqb a c); [discriminate|].
    destruct (IndexByte c k); [discriminate|]. intros _. by rewrite IH.
Qed.

Lemma IndexByte_split c s n :
  IndexByte c s = Some n →
  s = (slice_to n s ++ String c (slice_from (n + 1) s))%string ∧
  IndexByte c (slice_to n s) = None.
Proof.
  revert n. induction s as [|a s IH]; intros n; simpl; [discriminate|].
  destruct (Ascii.eqb a c) eqn:Hac.
  - intros [= <-]. apply Ascii.eqb_eq in Hac as ->. done.
  - destruct (IndexByte c s) as [k|]; [|discriminate].
    intros [= <-]. destruct (IH k eq_refl) as [Hs Hnone]. simpl.
    rewrite Hac, Hnone. split; [|done].
    change (String a s = String a (slice_to k s ++ String c (slice_from (k + 1) s))%string).
    by f_equal.
Qed.

Lemma slice_to_app k r : slice_to (String.length k) (k ++ r)%string = k.
Proof.
  induction k as [|a k IH]; simpl; [by destruct r|]. by rewrite IH.
Qed.

Lemma slice_from_app k r : slice_from (String.length k) (k ++ r)%string = r.
Proof. induction k as [|a k IH]; simpl; [by destruct r|done]. Qed.

Lemma TrimLeft_spaces c p s :
  TrimLeft c (string_of_list_ascii (repeat c p) ++ s)%string = TrimLeft c s.
Proof. induction p as [|p IH]; simpl; [done|]. by rewrite Ascii.eqb_refl. Qed.

Lemma TrimLeft_id c s : IndexByte c s = None → TrimLeft c s = s.
Proof. destruct s as [|a s]; simpl; [done|]. by destruct (Ascii.eqb a c). Qed.

Lemma TrimLeft_app_id c s r :
  s ≠ EmptyString → IndexByte c s = None → TrimLeft c (s ++ r)%string = (s ++ r)%string.
Proof. destruct s as [|a s]; simpl; [done|]. by destruct (Ascii.eqb a c). Qed.

Lemma TrimRight_only c p : TrimRight c (string_of_list_ascii (repeat c p)) = EmptyString.
Proof. induction p as [|p IH]; simpl; [done|]. by rewrite IH, Ascii.eqb_refl. Qed.

Lemma TrimRight_spaces c p s :
  TrimRight c (s ++ string_of_list_ascii (repeat c p))%string = TrimRight c s.
Proof.
  induction s as [|a s IH]; simpl; [apply TrimRight_only|]. by rewrite IH.
Qed.

Lemma TrimRight_id c s : IndexByte c s = None → TrimRight c s = s.
Proof.
  induction s as [|a s IH]; simpl; [done|].
  destruct (Ascii.eqb a c); [discriminate|].
  destruct (IndexByte c s); [discriminate|]. intros _. rewrite IH by done.
  by destruct s.
Qed.

Lemma TrimRight_app c a b :
  TrimRight c b ≠ EmptyString → TrimRight c (a ++ b)%string = (a ++ TrimRight c b)%string.
Proof.
  intros Hb. induction a as [|x a IH]; [done|].
  rewrite !append_cons. simpl. rewrite IH.
  destruct (a ++ TrimRight c b)%string eqn:Heq; [|done].
  destruct a; [by rewrite append_nil in Heq|]. by rewrite append_cons in Heq.
Qed.

Lemma Split_one c s : IndexByte c s = None → Split c s = [s].
Proof.
  induction s as [|a s IH]; simpl; [done|].
  destruct (Ascii.eqb a c); [discriminate|].
  destruct (IndexByte c s); [discriminate|]. intros _. by rewrite IH.
Qed.

Lemma Split_app c a b :
  IndexByte c a = None → Split c (a ++ String c b)%string = a :: Split c b.
Proof.
  induction a as [|x a IH]; simpl.
  - by rewrite Ascii.eqb_refl.
  - destruct (Ascii.eqb x c); [discriminate|].
    destruct (IndexByte c a); [discriminate|]. intros _. by rewrite IH.
Qed.

Lemma Split_nonempty c s : Split c s ≠ [].
Proof.
  destruct s as [|a s]; simpl; [done|].
  destruct (Ascii.eqb a c); [done|]. by destruct (Split c s).
Qed.

Lemma Split_inv_one c s a : Split c s = [a] → s = a ∧ IndexByte c a = None.
Proof.
  revert a. induction s as [|x s IH]; intros a; simpl.
  - by intros [= <-].
  - destruct (Ascii.eqb x c) eqn:Hx.
    + intros [= _ H]. by apply Split_nonempty in H.
    + destruct (Split c s) as [|p ps] eqn:Hs; [by apply Split_nonempty in Hs|].
      intros [= <- ->]. destruct (IH p eq_refl) as [-> Hnone].
      simpl. by rewrite Hx, Hnone.
Qed.

Lemma Split_inv_two c s a b :
  Split c s = [a; b] →
  s = (a ++ String c b)%string ∧ IndexByte c a = None ∧ IndexByte c b = None.
Proof.
  revert a. induction s as [|x s IH]; intros a; simpl; [discriminate|].
  destruct (Ascii.eqb x c) eqn:Hx.
  - intros [= <- H]. apply Ascii.eqb_eq in Hx as ->.
    apply Split_inv_one in H as [-> Hnone]. done.
  - destruct (Split c s) as [|p ps] eqn:Hs; [discriminate|].
    intros [= <- ->]. destruct (IH p eq_refl) as (-> & Ha & Hb).
    simpl. by rewrite Hx, Ha.
Qed.

(** ** [strconv.ParseInt] *)

Lemma digit_of_bound c d : digit_of c = Some d → 0 ≤ d ≤ 9 ∧ c ≠ " "%char.
Proof.
  unfold digit_of. destruct (_ && _) eqn:Hr; [|discriminate].
  apply andb_true_iff in Hr as [H1 H2]. apply Nat.leb_le in H1, H2.
  intros [= <-]. split; [lia|]. intros ->.
  change (nat_of_ascii " ") with 32%nat in H1. lia.
Qed.

Lemma digits_value_no_space acc s v :
  digits_value acc s = Some v → IndexByte " " s = None.
Proof.
  revert acc. induction s as [|c s IH]; intros acc; simpl; [done|].
  destruct (digit_of c) as [d|] eqn:Hd; [|discriminate].
  apply digit_of_bound in Hd as [_ Hne]. intros H.
  rewrite (IH _ H). by destruct (Ascii.eqb_spec c " ").
Qed.

Lemma digits_value_nonneg s acc v : 0 ≤ acc → digits_value acc s = Some v → 0 ≤ v.
Proof.
  revert acc. induction s as [|x s IH]; intros acc Hacc; simpl; [by intros [= <-]|].
  destruct (digit_of x) as [d|] eqn:Hx; [|discriminate].
  apply digit_of_bound in Hx as [Hx _]. apply IH. lia.
Qed.

Lemma ParseInt_token s v :
  ParseInt s = Some v →
  s ≠ EmptyString ∧ IndexByte " " s = None ∧ - 2 ^ 63 ≤ v < 2 ^ 63.
Proof.
  destruct s as [|c s]; [discriminate|]. unfold ParseInt.
  intros H. split; [done|].
  destruct (Ascii.eqb c "+" || Ascii.eqb c "-") eqn:Hsign.
  - destruct s as [|c' s']; [discriminate|].
    destruct (digits_value 0 (String c' s')) as [un|] eqn:Hd; [|discriminate].
    assert (0 ≤ un) as Hun by (by eapply digits_value_nonneg).
    apply digits_value_no_space in Hd. split.
    + change (IndexByte " " (String c (String c' s')))
        with (if Ascii.eqb c " " then Some O
              else match IndexByte " " (String c' s') with
                   | Some n => Some (S n) | None => None end).
      rewrite Hd. apply orb_true_iff in Hsign as [->%Ascii.eqb_eq| ->%Ascii.eqb_eq]; done.
    + destruct (Ascii.eqb c "-"); repeat case_match; simplify_eq; lia.
  - apply orb_false_iff in Hsign as [Hp Hm]. rewrite Hm in H.
    destruct (digits_value 0 (String c s)) as [un|] eqn:Hd; [|discriminate].
    assert (0 ≤ un) as Hun by (by eapply digits_value_nonneg).
    split; [by eapply digits_value_no_space|].
    repeat case_match; simplify_eq; lia.
Qed.

(** ** [getMemInfo] *)

Lemma Trim_padded c p1 p2 x :
  x ≠ EmptyString → IndexByte c x = None →
  Trim c (string_of_list_ascii (repeat c p1) ++ x ++ string_of_list_ascii (repeat c p2))%string
  = x.
Proof.
  intros Hne Hx. unfold Trim. rewrite TrimLeft_spaces, TrimLeft_app_id by done.
  rewrite TrimRight_spaces. by apply TrimRight_id.
Qed.

Lemma Trim_padded_unit c p1 p2 x u :
  x ≠ EmptyString → IndexByte c x = None → u ≠ EmptyString → IndexByte c u = None →
  Trim c (string_of_list_ascii (repeat c p1) ++ x
          ++ String c (u ++ string_of_list_ascii (repeat c p2)))%string
  = (x ++ String c u)%string.
Proof.
  intros Hne Hx Hu Hcu. unfold Trim. rewrite TrimLeft_spaces, TrimLeft_app_id by done.
  assert (Hr : TrimRight c (String c (u ++ string_of_list_ascii (repeat c p2)))%string
               = String c u).
  { change (String c (u ++ ?r)%string) with (String c u ++ r)%string.
    rewrite TrimRight_spaces. simpl. rewrite (TrimRight_id c u Hcu).
    by destruct u. }
  rewrite TrimRight_app; rewrite Hr; done.
Qed.

Lemma slice_from_colon key r :
  slice_from (String.length key + 1) (key ++ String ":" r)%string = r.
Proof.
  induction key as [|a k IH]; [done|]. rewrite append_cons. simpl. apply IH.
Qed.

(** X17. [getMemInfo] takes a line of the form the kernel prints, a key
    without colon, a colon, padding spaces, a decimal int64 and optionally
    " kB" (trailing spaces allowed): the key is set to the number. *)
Theorem meminfo_line_accepts key p1 p2 num v m :
  IndexByte ":" key = None →
  ParseInt num = Some v →
  meminfo_line (key ++ ":" ++ spaces p1 ++ num ++ " kB" ++ spaces p2)%string m
    = <[key := v]> m ∧
  meminfo_line (key ++ ":" ++ spaces p1 ++ num ++ spaces p2)%string m
    = <[key := v]> m.
Proof.
  intros Hkey Hnum. destruct (ParseInt_token _ _ Hnum) as (Hne & Hsp & _).
  unfold spaces. split.
  - change (key ++ ":" ++ ?a ++ num ++ " kB" ++ ?b)%string
      with (key ++ String ":" (a ++ num ++ String " " ("kB" ++ b)))%string.
    unfold meminfo_line.
    rewrite (IndexByte_app ":" key _ Hkey), slice_to_app, slice_from_colon.
    rewrite (Trim_padded_unit " " p1 p2 num "kB" Hne Hsp) by done.
    rewrite (Split_app " " num "kB" Hsp). simpl. by rewrite Hnum.
  - change (key ++ ":" ++ ?a)%string with (key ++ String ":" a)%string.
    unfold meminfo_line.
    rewrite (IndexByte_app ":" key _ Hkey), slice_to_app, slice_from_colon.
    rewrite (Trim_padded " " p1 p2 num Hne Hsp).
    rewrite (Split_one " " num Hsp). by rewrite Hnum.
Qed.

(** X18. A line changes the map only in that way: unless the map stays as
    it is, the line is a key without colon, a colon and a rest that,
    trimmed of spaces, is a decimal int64 alone or followed by one space
    and "kB"; the key is then set to that number. Other units, further
    fields and doubled spaces leave the map unchanged. *)
Theorem meminfo_line_sound text m :
  meminfo_line text m = m ∨
  ∃ key rest num v,
    text = (key ++ ":" ++ rest)%string ∧
    IndexByte ":" key = None ∧
    (Trim " " rest = num ∨ Trim " " rest = (num ++ " kB")%string) ∧
    ParseInt num = Some v ∧
    meminfo_line text m = <[key := v]> m.
Proof.
  unfold meminfo_line.
  destruct (IndexByte ":" text) as [n|] eqn:Hidx; [|by left].
  destruct (IndexByte_split _ _ _ Hidx) as [Htext Hkey].
  destruct (Split " " _) as [|d0 [|d1 [|d2 ds]]] eqn:Hsplit; [by left| | |by left].
  - destruct (ParseInt d0) as [v|] eqn:Hv; [|by left].
    right. exists (slice_to n text), (slice_from (n + 1) text), d0, v.
    apply Split_inv_one in Hsplit as [Ht _]. repeat split; auto.
  - destruct (String.eqb d1 "kB") eqn:Hkb; [|by left].
    destruct (ParseInt d0) as [v|] eqn:Hv; [|by left].
    right. exists (slice_to n text), (slice_from (n + 1) text), d0, v.
    apply String.eqb_eq in Hkb as ->.
    apply Split_inv_two in Hsplit as (Ht & _ & _). repeat split; auto.
Qed.

Lemma meminfo_line_cases text m :
  meminfo_line text m = m ∨
  ∃ key num v, IndexByte ":" key = None ∧ ParseInt num = Some v ∧
               meminfo_line text m = <[key := v]> m.
Proof.
  unfold meminfo_line.
  destruct (IndexByte ":" text) as [n|] eqn:Hidx; [|by left].
  destruct (IndexByte_split _ _ _ Hidx) as [_ Hkey].
  destruct (Split " " _) as [|d0 [|d1 [|d2 ds]]]; [by left| | |by left].
  - destruct (ParseInt d0) as [v|] eqn:Hv; [|by left]. right. eauto 6.
  - destruct (String.eqb d1 "kB"); [|by left].
    destruct (ParseInt d0) as [v|] eqn:Hv; [|by left]. right. eauto 6.
Qed.

Lemma getMemInfo_invariant (P : gmap string Z → Prop) file :
  P ∅ → (∀ text m, P m → P (meminfo_line text m)) → P (getMemInfo file).
Proof.
  intros H0 Hstep. destruct file as [lines|]; [|done]. simpl.
  generalize (∅ : gmap string Z) H0. induction lines as [|l lines IH]; simpl; auto.
Qed.

Lemma getMemInfo_range file k v :
  getMemInfo file !! k = Some v → - 2 ^ 63 ≤ v < 2 ^ 63.
Proof.
  revert k v.
  apply (getMemInfo_invariant
           (λ m, ∀ k v, m !! k = Some v → - 2 ^ 63 ≤ v < 2 ^ 63)); [done|].
  intros text m Hm k v.
  destruct (meminfo_line_cases text m) as [->|(key & num & w & _ & Hw & ->)]; [apply Hm|].
  rewrite lookup_insert. case_decide; [|apply Hm].
  intros [= <-]. by apply ParseInt_token in Hw as (_ & _ & ?).
Qed.

(** X19. Whatever the file holds, [getMemInfo] records only keys without a
    colon and only values of the int64 range; an unreadable file gives the
    empty map. *)
Theorem getMemInfo_entries file k v :
  getMemInfo file !! k = Some v →
  IndexByte ":" k = None ∧ - 2 ^ 63 ≤ v < 2 ^ 63 ∧ file ≠ None.
Proof.
  intros Hk. split; [|split]; [|by eapply getMemInfo_range|by intros ->].
  revert k v Hk.
  apply (getMemInfo_invariant
           (λ m, ∀ k v, m !! k = Some v → IndexByte ":" k = None)); [done|].
  intros text m Hm k v.
  destruct (meminfo_line_cases text m) as [->|(key & num & w & Hkey & _ & ->)]; [apply Hm|].
  rewrite lookup_insert. case_decide; [by subst|apply Hm].
Qed.

(** X20. When the file gives MemTotal, MemFree, Buffers and Cached with
    non-negative free, buffer and cache sizes that together do not exceed
    the total, [GetMemoryStats] computes Used = MemTotal - MemFree - Buffers
    - Cached without int64 wrap-around: Used lies between 0 and MemTotal,
    and Used, Free, Buffers and Cached add up to MemTotal. *)
Theorem GetMemoryStats_accounts_for_total file total free buffers cached :
  getMemInfo file !! "MemTotal" = Some total →
  getMemInfo file !! "MemFree" = Some free →
  getMemInfo file !! "Buffers" = Some buffers →
  getMemInfo file !! "Cached" = Some cached →
  0 ≤ free → 0 ≤ buffers → 0 ≤ cached → free + buffers + cached ≤ total →
  let stat := GetMemoryStats file in
  Used stat = total - free - buffers - cached ∧
  0 ≤ Used stat ≤ total ∧
  Used stat + Free stat + Buffers stat + Cached stat = total.
Proof.
  intros Ht Hf Hb Hc Hf0 Hb0 Hc0 Hsum stat.
  pose proof (getMemInfo_range _ _ _ Ht) as Hrange.
  assert (Hused : Used stat = total - free - buffers - cached).
  { subst stat. unfold GetMemoryStats, at_key. simpl. rewrite Ht, Hf, Hb, Hc. simpl.
    rewrite (wrap64_id (total - free)) by (unfold minDuration, maxDuration; lia).
    rewrite (wrap64_id (total - free - buffers)) by (unfold minDuration, maxDuration; lia).
    apply wrap64_id. unfold minDuration, maxDuration. lia. }
  split; [done|]. rewrite Hused. split; [lia|].
  subst stat. unfold GetMemoryStats, at_key. simpl. rewrite Hf, Hb, Hc. simpl. lia.
Qed.

(** * The munin plugin runner *)

Section MuninProperties.

Context {float64 MPoint : Type}.
Variable ParseFloat : string → float64 * option error.
Variable value_line : string → option (string * string).
Variable SimplePoint : string → float64 → MPoint.

Lemma gather_lines_appends lines (m : MuninPluginRunner float64) :
  let r := gather_lines ParseFloat value_line lines m in
  Command r.1 = Command m ∧ Arguments r.1 = Arguments m ∧ Prefix r.1 = Prefix m ∧
  kv m `prefix_of` kv r.1 ∧
  (r.2 = None → kv r.1 = kv m ++ collected ParseFloat value_line lines).
Proof.
  revert m. induction lines as [|text rest IH]; intros m; simpl.
  - repeat split; try done. intros _. by rewrite app_nil_r.
  - destruct (value_line text) as [[k n]|]; [|apply IH].
    destruct (ParseFloat n) as [value [err|]] eqn:Hpf; simpl.
    + repeat split; done.
    + destruct (IH (set_kv (kv m ++ [(k, value)]) m)) as (Hc & Ha & Hp & Hpre & Hok).
      simpl in *. repeat split; try done.
      * etrans; [|exact Hpre]. by apply prefix_app_r.
      * intros Hnone. rewrite (Hok Hnone), <- app_assoc. done.
Qed.

(** X21. [Gather] never clears what the runner holds: whatever the command
    prints and whether or not it fails, the values collected before are
    still there, in order, in front of the new ones, and the configuration
    is untouched; when [Exec] fails nothing is added at all. A runner that
    is gathered twice therefore reports the first run's values again. *)
Theorem Gather_only_appends exec (m : MuninPluginRunner float64) :
  let r := Gather ParseFloat value_line exec m in
  Command r.1 = Command m ∧ Arguments r.1 = Arguments m ∧ Prefix r.1 = Prefix m ∧
  kv m `prefix_of` kv r.1 ∧
  (r.2 = None → kv r.1 = kv m ++ collected ParseFloat value_line exec.1) ∧
  (∀ err, exec.2 = Some err → r = (m, Some err)).
Proof.
  destruct exec as [stdout [err|]]; simpl.
  - repeat split; try done. by intros e [= <-].
  - destruct (gather_lines_appends stdout m) as (Hc & Ha & Hp & Hpre & Hok).
    repeat split; done.
Qed.

Lemma fill_points (f : string * float64 → MPoint) filled todo tail :
  length tail = length todo →
  fold_left (λ points (ikv : nat * (string * float64)), <[ikv.1 := Some (f ikv.2)]> points)
    (zip (seq (length filled) (length todo)) todo)
    (filled ++ tail)
  = filled ++ map (λ x, Some (f x)) todo.
Proof.
  revert filled tail. induction todo as [|x todo IH]; intros filled tail Hlen.
  - destruct tail; [|done]. simpl. done.
  - destruct tail as [|t tail]; [done|]. simpl.
    replace (<[length filled:=Some (f x)]> (filled ++ t :: tail))
      with ((filled ++ [Some (f x)]) ++ tail).
    + specialize (IH (filled ++ [Some (f x)]) tail).
      rewrite length_app in IH. simpl in IH.
      replace (length filled + 1)%nat with (S (length filled)) in IH by lia.
      rewrite IH by (simpl in Hlen; lia). by rewrite <- app_assoc.
    + rewrite <- app_assoc. simpl. symmetry.
      rewrite insert_app_r_alt by lia. by rewrite Nat.sub_diag.
Qed.

(** X22. [GetPoints] returns one point per collected value, in the order of
    collection and none of them nil; the point is named by the key alone
    when [Prefix] is empty and by [Prefix], a dot and the key otherwise. *)
Theorem GetPoints_one_per_value (m : MuninPluginRunner float64) :
  GetPoints SimplePoint m =
    map (λ x, Some (SimplePoint (if String.eqb (Prefix m) "" then x.1
                                 else (Prefix m ++ "." ++ x.1)%string) x.2)) (kv m).
Proof.
  unfold GetPoints.
  pose proof (fill_points (λ x, SimplePoint (point_key m x.1) x.2) [] (kv m)
                (replicate (length (kv m)) None)) as H.
  simpl in H. rewrite H by apply length_replicate. done.
Qed.

End MuninProperties.

(** * The report endpoint *)

Lemma tag_points_spec h id points batch :
  tag_points h id points = Returned batch →
  Forall2 (λ p q,
             TName q = TName p ∧ TFields q = TFields p ∧
             ∃ tags tags', TTags p = Some tags ∧ TTags q = Some tags' ∧
               tags' !! "hostname" = Some h ∧
               tags' !! "id" = (if String.eqb id localHostHex then tags !! "id" else Some id) ∧
               ∀ k, k ≠ "hostname" → k ≠ "id" → tags' !! k = tags !! k)
          points batch.
Proof.
  revert batch. induction points as [|p rest IH]; intros batch; simpl.
  - intros [= <-]. constructor.
  - unfold tag_point at 1. destruct (TTags p) as [tags|] eqn:Htags; [|discriminate].
    destruct (tag_points h id rest) as [qs|]; [|discriminate].
    intros [= <-]. constructor; [|by apply IH].
    simpl. split; [done|]. split; [done|]. eexists tags, _. split; [done|].
    split; [done|]. destruct (String.eqb id localHostHex); simpl.
    + split; [apply lookup_insert_eq|]. split; [by rewrite lookup_insert_ne|].
      intros k Hk _. by rewrite lookup_insert_ne.
    + split; [by rewrite lookup_insert_ne, lookup_insert_eq|].
      split; [apply lookup_insert_eq|].
      intros k Hk Hk'. by rewrite !lookup_insert_ne.
Qed.

(** X23. When [sendToInflux] returns, the batch handed to the database is
    the points of the report, one for one and in order, each with the tag
    "hostname" set to the reported host name and, unless the account is the
    reserved identifier of 24 zeros, the tag "id" set to the account's
    identifier; for the reserved identifier the tag "id" is left as it was.
    All other tags, names and fields are unchanged, and the error returned
    is the database's. *)
Theorem sendToInflux_tags_every_point points write stats id batch err :
  sendToInflux points write stats id = Returned (batch, err) →
  err = write ∧
  ∃ h, stats !! "hostname" = Some (HostnameValue (Some h)) ∧
    Forall2 (λ p q,
               TName q = TName p ∧ TFields q = TFields p ∧
               ∃ tags tags', TTags p = Some tags ∧ TTags q = Some tags' ∧
                 tags' !! "hostname" = Some h ∧
                 tags' !! "id" = (if String.eqb id localHostHex then tags !! "id"
                                  else Some id) ∧
                 ∀ k, k ≠ "hostname" → k ≠ "id" → tags' !! k = tags !! k)
            points batch.
Proof.
  unfold sendToInflux, hostname_of.
  destruct (stats !! "hostname") as [[[h|]|]|] eqn:Hh; try discriminate.
  destruct (tag_points h id points) as [tagged|] eqn:Htag; [|discriminate].
  intros [= <- <-]. split; [done|]. exists h. split; [done|].
  by apply tag_points_spec.
Qed.

Ltac list_member H :=
  repeat (apply elem_of_cons in H as [H|H]; [try discriminate H|]);
  try (by apply elem_of_nil in H).

(** X24. A report whose results hold no usable "hostname" entry (missing,
    of another type, or a nil pointer) makes the handler panic once the key
    has resolved to an account and the body has been parsed; up to the
    panic no host is added, nothing is written and no answer is sent. *)
Theorem report_without_hostname_panics env req id results points msg :
  Method req = "POST" →
  resolve env = inl (AccountSubject id) →
  bound env = inl (results, points) →
  hostname_of results = Panicked msg →
  (reportHandler env req).2 = Some msg ∧
  (reportHandler env req).1 = [SResolveKey (Secret req); SBindJSON].
Proof.
  intros Hm Hr Hb Hh. unfold reportHandler, report_send, sendToInflux.
  rewrite Hm, Hr, Hb, Hh. simpl. by destruct (has_store env).
Qed.

(** X25. The handler hands points to the time-series database, and adds a
    host to the store, only for a POST request whose key resolved to an
    account and whose body was parsed; with a store configured, points are
    written only if the host lookup did not answer [ErrorNoAccess] and, when
    the lookup failed otherwise, only after the host was added without
    error under the transport "localtransport". *)
Theorem report_writes_only_when_authorised env req :
  (∀ batch, SWritePoints batch ∈ (reportHandler env req).1 →
     Method req = "POST" ∧
     (∃ id, resolve env = inl (AccountSubject id)) ∧
     (∃ results points, bound env = inl (results, points)) ∧
     (has_store env = true →
        lookup env ≠ Some ErrorNoAccess ∧
        (lookup env ≠ None → added env = None ∧
           ∃ id name, SAddHost id name "localtransport" ∈ (reportHandler env req).1))) ∧
  (∀ acc name tid, SAddHost acc name tid ∈ (reportHandler env req).1 →
     Method req = "POST" ∧ resolve env = inl (AccountSubject acc) ∧
     has_store env = true ∧ tid = "localtransport" ∧
     (∃ msg, lookup env = Some (LookupFailed msg)) ∧
     ∃ results points, bound env = inl (results, points) ∧
                       hostname_of results = Returned name).
Proof.
  unfold reportHandler, report_send. split.
  - intros batch Hin.
    destruct (String.eqb (Method req) "POST") eqn:Hm; simpl in Hin; [|list_member Hin].
    apply String.eqb_eq in Hm.
    destruct (resolve env) as [[id|id]|err] eqn:Hr; simpl in Hin; try list_member Hin.
    destruct (bound env) as [[results points]|err] eqn:Hb; simpl in Hin; [|list_member Hin].
    split; [done|]. split; [eauto|]. split; [eauto|].
    intros Hs. rewrite Hs in Hin |- *.
    destruct (hostname_of results) as [h|msg]; simpl in Hin; [|list_member Hin].
    destruct (lookup env) as [[|lmsg]|] eqn:Hl; simpl in Hin; [list_member Hin| |].
    + split; [done|]. intros _.
      destruct (added env) as [aerr|] eqn:Ha; simpl in Hin; [list_member Hin|].
      split; [done|]. exists id, h.
      destruct (sendToInflux _ _ _ _) as [[tagged [werr|]]|]; simpl;
        rewrite !elem_of_cons; auto 10.
    + split; [done|]. by intros [].
  - intros acc name tid Hin.
    destruct (String.eqb (Method req) "POST") eqn:Hm; simpl in Hin; [|list_member Hin].
    apply String.eqb_eq in Hm.
    destruct (resolve env) as [[id|id]|err] eqn:Hr; simpl in Hin; try list_member Hin.
    destruct (bound env) as [[results points]|err] eqn:Hb; simpl in Hin; [|list_member Hin].
    destruct (has_store env) eqn:Hs.
    + destruct (hostname_of results) as [h|msg] eqn:Hh; simpl in Hin; [|list_member Hin].
      destruct (lookup env) as [[|lmsg]|] eqn:Hl; simpl in Hin; [list_member Hin| |].
      * destruct (added env) as [aerr|] eqn:Ha; simpl in Hin.
        -- list_member Hin. injection Hin as <- <- <-. eauto 12.
        -- destruct (sendToInflux _ _ _ _) as [[tagged [werr|]]|]; simpl in Hin;
             list_member Hin; injection Hin as <- <- <-; eauto 12.
      * destruct (sendToInflux _ _ _ _) as [[tagged [werr|]]|]; simpl in Hin;
          list_member Hin.
    + destruct (sendToInflux _ _ _ _) as [[tagged [werr|]]|]; simpl in Hin;
        list_member Hin.
Qed.

(** X26. A run of the handler that does not panic sends exactly one answer,
    as its last call; the answer is 200 "Got it" exactly when points were
    handed to the database and the database reported no error. *)
Theorem report_answers_once env req :
  (reportHandler env req).2 = None →
  length (filter (λ e, is_response e = true) (reportHandler env req).1) = 1%nat ∧
  (∃ e, last (reportHandler env req).1 = Some e ∧ is_response e = true) ∧
  (SString 200 "Got it" ∈ (reportHandler env req).1 ↔
   (∃ batch, SWritePoints batch ∈ (reportHandler env req).1) ∧ written env = None).
Proof.
  unfold reportHandler, report_send, sendToInflux.
  destruct (String.eqb (Method req) "POST"); simpl.
  2: { intros _. split; [done|]. split; [eauto|]. split.
       - intros H. list_member H.
       - intros [[b H] _]. list_member H. }
  destruct (resolve env) as [[id|id]|err]; simpl.
  2,3: intros _; split; [done|]; (split; [eauto|]); split;
       [intros H; list_member H|intros [[b H] _]; list_member H].
  destruct (bound env) as [[results points]|err]; simpl.
  2: intros _; split; [done|]; (split; [eauto|]); split;
     [intros H; list_member H|intros [[b H] _]; list_member H].
  destruct (has_store env), (hostname_of results) as [h|msg]; simpl; try discriminate.
  - destruct (lookup env) as [[|lmsg]|]; simpl.
    + intros _; split; [done|]; (split; [eauto|]); split;
        [intros H; list_member H|intros [[b H] _]; list_member H].
    + destruct (added env) as [aerr|]; simpl.
      * intros _; split; [done|]; (split; [eauto|]); split;
          [intros H; list_member H|intros [[b H] _]; list_member H].
      * destruct (tag_points h id points) as [tagged|]; simpl; [|discriminate].
        destruct (written env) as [werr|]; simpl; intros _;
          (split; [done|]); (split; [eauto|]); split.
        -- intros H; list_member H.
        -- by intros [_ ?].
        -- intros _. split; [|done]. exists tagged. rewrite !elem_of_cons. auto 10.
        -- intros _. rewrite !elem_of_cons. auto 10.
    + destruct (tag_points h id points) as [tagged|]; simpl; [|discriminate].
      destruct (written env) as [werr|]; simpl; intros _;
        (split; [done|]); (split; [eauto|]); split.
      * intros H; list_member H.
      * by intros [_ ?].
      * intros _. split; [|done]. exists tagged. rewrite !elem_of_cons. auto 10.
      * intros _. rewrite !elem_of_cons. auto 10.
  - destruct (tag_points h id points) as [tagged|]; simpl; [|discriminate].
    destruct (written env) as [werr|]; simpl; intros _;
      (split; [done|]); (split; [eauto|]); split.
    + intros H; list_member H.
    + by intros [_ ?].
    + intros _. split; [|done]. exists tagged. rewrite !elem_of_cons. auto 10.
    + intros _. rewrite !elem_of_cons. auto 10.
Qed.

(** ** The properties on examples *)

Lemma meminfo_line_accepts_witness :
  meminfo_line "MemTotal:       16384256 kB" ∅ = <["MemTotal" := 16384256]> ∅.
Proof.
  exact (proj1 (meminfo_line_accepts "MemTotal" 7 0 "16384256" 16384256 ∅
                  eq_refl eq_refl)).
Defined.

Lemma getMemInfo_entries_witness :
  IndexByte ":" "MemFree" = None ∧ - 2 ^ 63 ≤ 1048576 < 2 ^ 63.
Proof.
  destruct (getMemInfo_entries (Some ex_meminfo) "MemFree" 1048576) as (Hk & Hv & _).
  - vm_compute. reflexivity.
  - split; [exact Hk|exact Hv].
Defined.

Lemma sendToInflux_tags_every_point_witness :
  ∃ batch, sendToInflux [ex_tpoint] None ex_results "5650a1c2e4b0f3a9d8c7b6a5"
           = Returned (batch, None) ∧
           length batch = 1%nat.
Proof.
  eexists. split; [vm_compute; reflexivity|].
  destruct (sendToInflux_tags_every_point [ex_tpoint] None ex_results
              "5650a1c2e4b0f3a9d8c7b6a5" _ None eq_refl) as (_ & h & _ & Hall).
  apply Forall2_length in Hall. symmetry. exact Hall.
Defined.

Lemma report_without_hostname_panics_witness :
  (reportHandler ex_nameless_env ex_request).2 = Some "interface conversion: interface is nil".
Proof.
  apply (report_without_hostname_panics ex_nameless_env ex_request
           "5650a1c2e4b0f3a9d8c7b6a5" ∅ [ex_tpoint]); reflexivity.
Defined.

Lemma report_answers_once_witness :
  SString 200 "Got it" ∈ (reportHandler ex_report_env ex_request).1.
Proof.
  destruct (report_answers_once ex_report_env ex_request) as (_ & _ & Hok).
  - vm_compute. reflexivity.
  - apply Hok. split; [|reflexivity].
    eexists. vm_compute. do 3 right. left.
Defined.

Lemma GetMemoryStats_accounts_for_total_witness :
  Used (GetMemoryStats (Some ex_meminfo)) = 16384256 - 1048576 - 524288 - 4194304.
Proof.
  apply (GetMemoryStats_accounts_for_total (Some ex_meminfo)
           16384256 1048576 524288 4194304);
    first [by vm_compute | vm_compute; discriminate].
Defined.
